(** * The quick-open overlay of the editor: ranker, indexer, listing cache

    Shallow embedding of the [FileBrowser] component (the file that starts
    with [interface FileItem]): [fuzzySearch], [filteredFiles], [crawl] /
    [indexAllFiles], [loadFiles] and the arrow keys of [handleKey].

    JavaScript strings are sequences of 16-bit code units; they are modelled
    as [list N].  The builtins the component calls ([startsWith], [includes],
    [endsWith], [trim], the string iterator used by [for ... of], indexing
    [s[i]], the stable [Array.prototype.sort]) are given by their ECMAScript
    meaning.  [toLowerCase] depends on the Unicode tables and is a parameter
    of the development; [asciiLower] is the instance used on concrete ASCII
    inputs, where it agrees with the builtin. *)

From Stdlib Require Import Ascii String.
From Stdlib Require Import ZArith List Lia Bool DecimalString.
From stdpp Require Import base list sorting gmap.
From Equations Require Import Equations.
Import ListNotations.

(** ** JavaScript strings *)

Module JS.

Abbreviation jsstring := (list N).

Definition isHighSurrogate (u : N) : bool := ((0xD800 <=? u) && (u <=? 0xDBFF))%N.
Definition isLowSurrogate (u : N) : bool := ((0xDC00 <=? u) && (u <=? 0xDFFF))%N.

(** The string iterator ([for (const c of s)]): one string per code point.
    A high surrogate directly followed by a low surrogate is delivered as
    one two-unit string, every other code unit as a one-unit string. *)
Fixpoint codePoints (s : jsstring) : list jsstring :=
  match s with
  | [] => []
  | u :: s' =>
      match s' with
      | v :: s'' =>
          if isHighSurrogate u && isLowSurrogate v
          then [u; v] :: codePoints s''
          else [u] :: codePoints s'
      | [] => [[u]]
      end
  end.

(** [s[i]]: the one-unit string at index [i], or [undefined] ([None]). *)
Definition charAt (s : jsstring) (i : nat) : option jsstring :=
  match s !! i with
  | Some u => Some [u]
  | None => None
  end.

(** [s.startsWith(t)] *)
Fixpoint startsWith (s t : jsstring) {struct t} : bool :=
  match t, s with
  | [], _ => true
  | _ :: _, [] => false
  | b :: t', a :: s' => (a =? b)%N && startsWith s' t'
  end.

(** [s.includes(t)] *)
Fixpoint includes (s t : jsstring) : bool :=
  startsWith s t ||
  match s with
  | [] => false
  | _ :: s' => includes s' t
  end.

(** [s.endsWith(t)] *)
Definition endsWith (s t : jsstring) : bool := startsWith (rev s) (rev t).

(** [s === t] on strings *)
Definition strEq (s t : jsstring) : bool := bool_decide (s = t).

(** White space and line terminators, as removed by [trim]. *)
Definition isWhiteSpace (u : N) : bool :=
  ((9 <=? u) && (u <=? 13) || (u =? 0x20) || (u =? 0xA0) || (u =? 0x1680)
   || (0x2000 <=? u) && (u <=? 0x200A) || (u =? 0x2028) || (u =? 0x2029)
   || (u =? 0x202F) || (u =? 0x205F) || (u =? 0x3000) || (u =? 0xFEFF))%N.

Fixpoint trimStart (s : jsstring) : jsstring :=
  match s with
  | u :: s' => if isWhiteSpace u then trimStart s' else s
  | [] => []
  end.

(** [s.trim()] *)
Definition trim (s : jsstring) : jsstring := rev (trimStart (rev (trimStart s))).

(** A string is falsy exactly when it is empty. *)
Definition truthy (s : jsstring) : bool :=
  match s with [] => false | _ :: _ => true end.

(** ASCII strings, written as Rocq strings, as code units. *)
Fixpoint lit (s : String.string) : jsstring :=
  match s with
  | String.EmptyString => []
  | String.String a s' => N_of_ascii a :: lit s'
  end.
Arguments lit s%_string.

(** [toLowerCase] on code units of the ASCII range; other units are kept. *)
Definition asciiLowerUnit (u : N) : N :=
  if ((0x41 <=? u) && (u <=? 0x5A))%N then (u + 0x20)%N else u.
Definition asciiLower (s : jsstring) : jsstring := map asciiLowerUnit s.

End JS.
Import JS.

(** ** The component *)

Inductive FileType : Type := file | folder.

(** [interface FileItem] *)
Record FileItem : Type := mkFileItem {
  name : jsstring;
  type : FileType;
  path : option jsstring;
  size : option Z;
  modified : option jsstring
}.

(** [f.type==="file"] *)
Definition isFile (f : FileItem) : bool :=
  match type f with file => true | folder => false end.

(** [f.path || dflt]: an absent or empty path is falsy. *)
Definition pathOr (f : FileItem) (dflt : jsstring) : jsstring :=
  match path f with
  | Some p => if truthy p then p else dflt
  | None => dflt
  end.

(** [{...f, path: p}] *)
Definition withPath (f : FileItem) (p : jsstring) : FileItem :=
  {| name := name f; type := type f; path := Some p;
     size := size f; modified := modified f |}.

Section Ranker.

Variable toLowerCase : jsstring -> jsstring.

(** The loop
    [let i=0; for(const c of name){ if(c===term[i]){s+=15;i++} if(i===term.length)break }]
    run over the remaining iterator elements [cs] from the state [(s, i)]. *)
Fixpoint walk (term : jsstring) (cs : list jsstring) (s : Z) (i : nat) : Z * nat :=
  match cs with
  | [] => (s, i)
  | c :: cs' =>
      let '(s1, i1) :=
        if bool_decide (Some c = charAt term i) then ((s + 15)%Z, S i) else (s, i) in
      if bool_decide (i1 = length term) then (s1, i1) else walk term cs' s1 i1
  end.

(** The body of the [items.map] callback of [fuzzySearch]: the score [s]. *)
Definition score (term : jsstring) (f : FileItem) : Z :=
  let name := toLowerCase (name f) in
  let path := toLowerCase (pathOr f []) in
  let s := 0%Z in
  let s := if strEq name term then (s + 900)%Z else s in
  let s := if startsWith name term then (s + 500)%Z else s in
  let s := if includes name term then (s + 250)%Z else s in
  let s := if includes path term then (s + 120)%Z else s in
  fst (walk term (codePoints name) s 0).

(** [s>0?{f,s}:null] *)
Definition scored (term : jsstring) (f : FileItem) : option (FileItem * Z) :=
  let s := score term f in
  if (s >? 0)%Z then Some (f, s) else None.

(** [Array.prototype.sort(cmp)]: the sort is stable (ECMAScript 2019),
    [cmp a b > 0] puts [a] after [b].  [sortInsert] places [x], which
    preceded every element of the already sorted [l] in the array, in front
    of the first element it must not follow. *)
Fixpoint sortInsert {A} (cmp : A -> A -> Z) (x : A) (l : list A) : list A :=
  match l with
  | [] => [x]
  | y :: l' => if (cmp x y >? 0)%Z then y :: sortInsert cmp x l' else x :: l
  end.

Definition sort {A} (cmp : A -> A -> Z) (l : list A) : list A :=
  foldr (sortInsert cmp) [] l.

(** [(a,b)=>b!.s-a!.s] *)
Definition byScoreDesc (a b : FileItem * Z) : Z := (snd b - snd a)%Z.

(** The array [fuzzySearch] holds after [.slice(0,50)]: the candidates
    mapped to [{f,s}] or [null], the nulls filtered out, sorted, truncated. *)
Definition ranked (q : jsstring) (items : list FileItem) : list (FileItem * Z) :=
  let term := toLowerCase q in
  take 50 (sort byScoreDesc (omap (scored term) items)).

(** [fuzzySearch(q, items)] *)
Definition fuzzySearch (q : jsstring) (items : list FileItem) : list FileItem :=
  map fst (ranked q items).

(** Descending order of the scores of two [{f,s}]. *)
Definition scoreGe (a b : FileItem * Z) : Prop := (snd b <= snd a)%Z.

(** An exact name match for the query [q], case-insensitively. *)
Definition exactMatch (q : jsstring) (f : FileItem) : Prop :=
  toLowerCase (name f) = toLowerCase q.

(** [filteredFiles], the displayed collection, from the states [query],
    [files] and [allFiles]. *)
Definition filteredFiles (query : jsstring) (files allFiles : list FileItem)
  : list FileItem :=
  if negb (truthy (trim query)) then take 200 files
  else if (0 <? length allFiles)%nat then fuzzySearch query allFiles
  else List.filter (fun f => includes (toLowerCase (name f)) (toLowerCase query)) files.

End Ranker.

(** ** The indexer and the listing cache *)

(** What the model records about a run: every invocation of [crawl], every
    listing call [crawl] issues, and every listing call [loadFiles] issues,
    the latter two with what the call returned ([None]: it failed).
    [depth] is the argument of [crawl]; [trail] holds the folder entries
    descended through since the root, outermost first (it is not in the
    source, the model carries it to say where a call happens). *)
Inductive Event : Type :=
  | Crawled (path : jsstring) (depth : Z) (trail : list FileItem)
  | Listed (path : jsstring) (depth : Z) (trail : list FileItem)
      (res : option (list FileItem))
  | Loaded (path : jsstring) (res : option (list FileItem)).

Section Browser.

(** The listing capability [onListFiles]: a call may fail ([None], the
    promise rejects) and may see or change the outside [World]. *)
Context {World : Type}.
Variable onListFiles : jsstring -> World -> option (list FileItem) * World.

Record Sys : Type := mkSys { world : World; trace : list Event }.

Definition emit (e : Event) (σ : Sys) : Sys :=
  {| world := world σ; trace := trace σ ++ [e] |}.

(** [await onListFiles(path)], recorded as [e] with its outcome. *)
Definition listing (e : option (list FileItem) -> Event) (path : jsstring) (σ : Sys)
  : option (list FileItem) * Sys :=
  let '(r, w) := onListFiles path (world σ) in
  (r, {| world := w; trace := trace σ ++ [e r] |}).

(** [f.path || (path.endsWith('/') ? `${path}${f.name}` : `${path}/${f.name}`)] *)
Definition filePathOf (path : jsstring) (f : FileItem) : jsstring :=
  pathOr f (if endsWith path (lit "/") then path ++ name f
            else path ++ lit "/" ++ name f).

(** [!f.name.startsWith('.') && f.name!=="node_modules" && f.name!=="build" && f.name!=="dist"] *)
Definition descendable (f : FileItem) : bool :=
  negb (startsWith (name f) (lit ".")) && negb (strEq (name f) (lit "node_modules"))
  && negb (strEq (name f) (lit "build")) && negb (strEq (name f) (lit "dist")).

(** The loop [for(const f of list){...}] of [crawl], from the entries [lst]
    still to visit and the value of [collected]; [rec filePath f] stands for
    [await crawl(filePath,depth+1)]. *)
Fixpoint crawlLoop (rec : jsstring -> FileItem -> Sys -> list FileItem * Sys)
    (path : jsstring) (lst collected : list FileItem) (σ : Sys)
  : list FileItem * Sys :=
  match lst with
  | [] => (collected, σ)
  | f :: rest =>
      let filePath := filePathOf path f in
      match type f with
      | file => crawlLoop rec path rest (collected ++ [withPath f filePath]) σ
      | folder =>
          if descendable f then
            let '(subFiles, σ') := rec filePath f σ in
            crawlLoop rec path rest (collected ++ subFiles) σ'
          else crawlLoop rec path rest collected σ
      end
  end.

(** [crawl(path, depth)].  The only statement of the [try] block that can
    throw is the listing call: the nested [crawl] catches its own errors. *)
Equations crawl (path : jsstring) (depth : Z) (trail : list FileItem) (σ : Sys)
  : list FileItem * Sys by wf (Z.to_nat (7 - depth)) lt :=
crawl path depth trail σ with Z_gt_dec depth 6 => {
  | left _ => ([], emit (Crawled path depth trail) σ)
  | right _ =>
      match listing (Listed path depth trail) path
              (emit (Crawled path depth trail) σ) with
      | (None, σ') => ([], σ')
      | (Some lst, σ') =>
          crawlLoop (fun filePath f s => crawl filePath (depth + 1) (trail ++ [f]) s)
            path lst [] σ'
      end }.
Next Obligation. lia. Qed.

(** The component's state (the [useState] and [useRef] cells). *)
Record State : Type := mkState {
  query : jsstring;
  selectedIndex : Z;
  currentPath : jsstring;
  files : list FileItem;
  allFiles : list FileItem;
  isLoading : bool;
  isIndexing : bool;
  indexedRef : jsstring;
  lastProjectRef : jsstring;
  cache : gmap jsstring (list FileItem)
}.

(** [loadFiles(path)], once its promise has settled. *)
Definition loadFiles (path : jsstring) (st : State) (σ : Sys) : State * Sys :=
  match cache st !! path with
  | Some l =>
      (mkState (query st) (selectedIndex st) (currentPath st) l (allFiles st)
         false (isIndexing st) (indexedRef st) (lastProjectRef st) (cache st), σ)
  | None =>
      match listing (Loaded path) path σ with
      | (Some lst, σ') =>
          (mkState (query st) (selectedIndex st) (currentPath st) lst (allFiles st)
             false (isIndexing st) (indexedRef st) (lastProjectRef st)
             (<[path := lst]> (cache st)), σ')
      | (None, σ') =>
          (mkState (query st) (selectedIndex st) (currentPath st) [] (allFiles st)
             false (isIndexing st) (indexedRef st) (lastProjectRef st) (cache st), σ')
      end
  end.

(** [indexAllFiles(root)], once its promise has settled. *)
Definition indexAllFiles (root : jsstring) (st : State) (σ : Sys) : State * Sys :=
  if strEq (indexedRef st) root then (st, σ)
  else
    let '(result, σ') := crawl root 0 [] σ in
    (mkState (query st) (selectedIndex st) (currentPath st) (files st) result
       (isLoading st) false root (lastProjectRef st) (cache st), σ').

End Browser.

(** The keys [handleKey] distinguishes. *)
Inductive Key : Type := ArrowDown | ArrowUp | Enter | Escape | OtherKey.

(** The selection cursor [handleKey] sets synchronously, from the current
    [selectedIndex] and the displayed collection [filteredFiles]. *)
Definition handleKey (key : Key) (selectedIndex : Z) (filteredFiles : list FileItem) : Z :=
  match key with
  | ArrowDown => Z.min (selectedIndex + 1) (Z.of_nat (length filteredFiles) - 1)
  | ArrowUp => Z.max (selectedIndex - 1) 0
  | _ => selectedIndex
  end.


(** ** The scoring function as the specification words it *)

(** The sequential character bonus: walk the name left to right; where the
    character equals the next unconsumed query character add 15 and advance
    the query cursor; nothing more once the query is consumed.  [A] is the
    type of characters: code units, or the strings of one code point. *)
Fixpoint seqBonus `{EqDecision A} (name query : list A) : Z :=
  match name with
  | [] => 0
  | c :: name' =>
      match query with
      | [] => 0
      | q :: query' =>
          if bool_decide (c = q) then (15 + seqBonus name' query')%Z
          else seqBonus name' query
      end
  end.

Section SpecScore.

Variable toLowerCase : jsstring -> jsstring.

(** The tests on name and path: exact, starts-with, contains, path contains. *)
Definition specBase (Q : jsstring) (f : FileItem) : Z :=
  let n := toLowerCase (name f) in
  let p := toLowerCase (pathOr f []) in
  let q := toLowerCase Q in
  ((if bool_decide (n = q) then 900 else 0)
   + (if startsWith n q then 500 else 0)
   + (if includes n q then 250 else 0)
   + (if includes p q then 120 else 0))%Z.

(** The score, characters read as code units. *)
Definition specScore (Q : jsstring) (f : FileItem) : Z :=
  (specBase Q f + seqBonus (toLowerCase (name f)) (toLowerCase Q))%Z.

(** The score, characters read as code points. *)
Definition specScoreCodePoints (Q : jsstring) (f : FileItem) : Z :=
  (specBase Q f
   + seqBonus (codePoints (toLowerCase (name f))) (codePoints (toLowerCase Q)))%Z.

End SpecScore.

(** A string has a character outside the Basic Multilingual Plane when a high
    surrogate is directly followed by a low surrogate. *)
Fixpoint hasSurrogatePair (s : jsstring) : bool :=
  match s with
  | [] => false
  | u :: s' =>
      match s' with
      | v :: _ => isHighSurrogate u && isLowSurrogate v || hasSurrogatePair s'
      | [] => false
      end
  end.

(** The name holds a high surrogate that is not followed by a low one: the
    iterator delivers it as a string of its own. *)
Definition hasUnpairedHigh (s : jsstring) : bool :=
  existsb (fun c => match c with [u] => isHighSurrogate u | _ => false end)
    (codePoints s).

(** The number of code units in front of the first surrogate pair (the
    length of the string when it has none). *)
Fixpoint unitsBeforePair (s : jsstring) : nat :=
  match s with
  | [] => 0
  | u :: s' =>
      match s' with
      | v :: _ =>
          if isHighSurrogate u && isLowSurrogate v then 0 else S (unitsBeforePair s')
      | [] => 1
      end
  end.

(** ** What a run may and must contain *)

(** A folder entry [crawl] is willing to descend into. *)
Definition allowedFolder (f : FileItem) : Prop :=
  type f = folder /\ startsWith (name f) (lit ".") = false
  /\ name f <> lit "node_modules" /\ name f <> lit "build" /\ name f <> lit "dist".

(** An event of an indexing pass respects the limits: it happens [depth]
    folder entries below the root, every one of them an allowed folder, and
    a listing call happens at most 6 levels below the root. *)
Definition withinBounds (e : Event) : Prop :=
  match e with
  | Crawled _ depth trail =>
      depth = Z.of_nat (length trail) /\ Forall allowedFolder trail
  | Listed _ depth trail _ =>
      depth = Z.of_nat (length trail) /\ (depth <= 6)%Z /\ Forall allowedFolder trail
  | Loaded _ _ => True
  end.

(** The file entries a listing call of [crawl] hands to the index: none when
    the call failed. *)
Definition reported (e : Event) : list FileItem :=
  match e with
  | Listed p _ _ (Some lst) =>
      map (fun f => withPath f (filePathOf p f)) (List.filter isFile lst)
  | _ => []
  end.

(** The events of a pass follow up on what the listings report: every
    folder entry of a successful listing that [crawl] is willing to descend
    into is crawled, and every invocation of [crawl] within the depth limit
    issues its listing call. *)
Definition followsUp (new : list Event) : Prop :=
  (forall p d t lst f,
     Listed p d t (Some lst) ∈ new -> f ∈ lst ->
     type f = folder -> descendable f = true ->
     Crawled (filePathOf p f) (d + 1) (t ++ [f]) ∈ new)
  /\ (forall p d t, Crawled p d t ∈ new -> (d <= 6)%Z -> exists r, Listed p d t r ∈ new).

(** What the trace says a listing call returned is what the capability
    returns: stated for a capability that answers by the path alone. *)
Definition truthful (ls : jsstring -> option (list FileItem)) (e : Event) : Prop :=
  match e with
  | Listed p _ _ r => r = ls p
  | _ => True
  end.

(** The files of a listing of [path], as [crawl] collects them. *)
Definition filesOf (path : jsstring) (lst : list FileItem) : list FileItem :=
  map (fun f => withPath f (filePathOf path f)) (List.filter isFile lst).

(** What a call [crawl(path, depth)] that ran from [σ] to [snd res] and
    returned [fst res] has done. *)
Definition accounted {World : Type} (path : jsstring) (depth : Z) (trail : list FileItem)
    (σ : @Sys World) (res : list FileItem * @Sys World) : Prop :=
  exists new,
    trace (snd res) = trace σ ++ new
    /\ fst res ≡ₚ flat_map reported new
    /\ followsUp new
    /\ Crawled path depth trail ∈ new.

(** ** Concrete inputs *)

(** The component's state when the overlay is first mounted. *)
Definition initialState : State :=
  mkState [] 0 [] [] [] false false [] [] ∅.

(** The index [allFiles] after [indexAllFiles(root)] on a fresh component. *)
Definition indexOf {World : Type}
    (onListFiles : jsstring -> World -> option (list FileItem) * World)
    (root : jsstring) (w : World) : list FileItem :=
  allFiles (fst (indexAllFiles onListFiles root initialState (mkSys w []))).

(** The position of the first entry named [n]. *)
Fixpoint rankOf (n : jsstring) (l : list FileItem) : option nat :=
  match l with
  | [] => None
  | f :: l' => if strEq (name f) n then Some 0%nat else S <$> rankOf n l'
  end.

(** Both names occur in [l], and [a] stands above [b]. *)
Definition ranksAbove (a b : jsstring) (l : list FileItem) : bool :=
  match rankOf a l, rankOf b l with
  | Some i, Some j => (i <? j)%nat
  | _, _ => false
  end.

(** Some entry of [l] is named [n]. *)
Definition hasName (n : jsstring) (l : list FileItem) : bool :=
  existsb (fun f => strEq (name f) n) l.

(** U+1F600, one character, two code units. *)
Definition smiley : jsstring := [0xD83D; 0xDE00]%N.
Definition smileyFile : FileItem := mkFileItem smiley file None None None.


(** The project of the scenario: [/proj] holds [Readme.md], [readme-old.md]
    and the folder [src], which holds [main.go]; entries as the backend's
    [ListFiles] reports them. *)
Definition readmeMd : FileItem :=
  mkFileItem (lit "Readme.md") file (Some (lit "/proj/Readme.md"))
    (Some 1024%Z) (Some (lit "2024-01-01T00:00:00Z")).
Definition readmeOld : FileItem :=
  mkFileItem (lit "readme-old.md") file (Some (lit "/proj/readme-old.md"))
    (Some 512%Z) (Some (lit "2023-01-01T00:00:00Z")).
Definition srcDir : FileItem :=
  mkFileItem (lit "src") folder (Some (lit "/proj/src"))
    (Some 4096%Z) (Some (lit "2024-01-01T00:00:00Z")).
Definition mainGo : FileItem :=
  mkFileItem (lit "main.go") file (Some (lit "/proj/src/main.go"))
    (Some 2048%Z) (Some (lit "2024-01-01T00:00:00Z")).

Definition readmeUpper : FileItem :=
  mkFileItem (lit "README") file (Some (lit "/proj/README"))
    (Some 256%Z) (Some (lit "2024-01-01T00:00:00Z")).

(** The listing capability over that project; [rootEntries] is the listing
    of [/proj], in the order the capability reports it. *)
Definition projListing (rootEntries : list FileItem) (p : jsstring) (w : unit)
  : option (list FileItem) * unit :=
  if strEq p (lit "/proj") then (Some rootEntries, w)
  else if strEq p (lit "/proj/src") then (Some [mainGo], w)
  else (None, w).

(** A project whose folder [locked] cannot be listed. *)
Definition lockedDir : FileItem :=
  mkFileItem (lit "locked") folder (Some (lit "/proj/locked")) None None.
Definition docsDir : FileItem :=
  mkFileItem (lit "docs") folder (Some (lit "/proj/docs")) None None.
Definition guideMd : FileItem :=
  mkFileItem (lit "guide.md") file (Some (lit "/proj/docs/guide.md")) None None.
Definition lockedListing (p : jsstring) (w : unit) : option (list FileItem) * unit :=
  if strEq p (lit "/proj") then (Some [lockedDir; srcDir; docsDir], w)
  else if strEq p (lit "/proj/src") then (Some [mainGo], w)
  else if strEq p (lit "/proj/docs") then (Some [guideMd], w)
  else (None, w).

(** A directory whose content is the state of the world: the listing
    returns whatever the directory holds at the time of the call. *)
Definition liveListing (p : jsstring) (w : list FileItem)
  : option (list FileItem) * list FileItem := (Some w, w).

(** A listing capability that always fails. *)
Definition failingListing (p : jsstring) (w : unit) : option (list FileItem) * unit :=
  (None, w).

(** The listing calls for [p] in a trace. *)
Definition listingCalls (p : jsstring) (tr : list Event) : nat :=
  length (List.filter
            (fun e => match e with
                      | Listed p' _ _ _ | Loaded p' _ => strEq p' p
                      | Crawled _ _ _ => false
                      end) tr).

(** ** The rest of the overlay *)

Section Overlay.

Context {World : Type}.
Variable onListFiles : jsstring -> World -> option (list FileItem) * World.

(** [navigateTo(path)], once its promise has settled:
    [setCurrentPath(path); await loadFiles(path); setSelectedIndex(0); setQuery('')]. *)
Definition navigateTo (path : jsstring) (st : State) (σ : @Sys World)
  : State * @Sys World :=
  let st1 :=
    mkState (query st) (selectedIndex st) path (files st) (allFiles st)
      (isLoading st) (isIndexing st) (indexedRef st) (lastProjectRef st) (cache st) in
  let '(st2, σ') := loadFiles onListFiles path st1 σ in
  (mkState [] 0 (currentPath st2) (files st2) (allFiles st2)
     (isLoading st2) (isIndexing st2) (indexedRef st2) (lastProjectRef st2) (cache st2),
   σ').

End Overlay.

(** [filteredFiles[selectedIndex]]: [undefined] outside the array. *)
Definition entryAt (filteredFiles : list FileItem) (selectedIndex : Z) : option FileItem :=
  if (selectedIndex <? 0)%Z then None else filteredFiles !! Z.to_nat selectedIndex.

(** What [handleKey] calls: [navigateTo(f.path!)], [onOpenFile(f.path!)]
    (an entry without path passes [undefined]) and [onClose()]. *)
Inductive Effect : Type :=
  | CallNavigateTo (p : option jsstring)
  | CallOnOpenFile (p : option jsstring)
  | CallOnClose.

(** The Enter and Escape branches of [handleKey]: the calls they make, in
    order. *)
Definition handleKeyEffects (key : Key) (selectedIndex : Z)
    (filteredFiles : list FileItem) : list Effect :=
  match key with
  | Enter =>
      match entryAt filteredFiles selectedIndex with
      | Some f =>
          match type f with
          | folder => [CallNavigateTo (path f)]
          | file => [CallOnOpenFile (path f); CallOnClose]
          end
      | None => []
      end
  | Escape => [CallOnClose]
  | _ => []
  end.

(** ** Array and string helpers of the editor shell *)

(** [s.split(sep)] for a separator of one code unit: never an empty array. *)
Fixpoint splitOn (sep : N) (s : jsstring) : list jsstring :=
  match s with
  | [] => [[]]
  | u :: s' =>
      if (u =? sep)%N then [] :: splitOn sep s'
      else match splitOn sep s' with
           | h :: t => (u :: h) :: t
           | [] => [[u]]
           end
  end.

(** [l.join(sep)] for a separator of one code unit. *)
Fixpoint joinWith (sep : N) (l : list jsstring) : jsstring :=
  match l with
  | [] => []
  | x :: l' =>
      match l' with
      | [] => x
      | _ :: _ => x ++ sep :: joinWith sep l'
      end
  end.

(** The decimal digits of an integer: what [`${n}`] gives for an integer
    [n] of magnitude below 10^21. *)
Definition numberToString (n : Z) : jsstring :=
  lit (NilZero.string_of_int (Z.to_int n)).

(** [filePath.split('/').pop() || filePath], the name shown for a path. *)
Definition fileNameOf (filePath : jsstring) : jsstring :=
  match last (splitOn 47 filePath) with
  | Some n => if truthy n then n else filePath
  | None => filePath
  end.

(** An optional string is truthy when it is present and not empty. *)
Definition truthyOpt (s : option jsstring) : bool :=
  match s with Some p => truthy p | None => false end.

(** [recentFiles] after [openFileFromPath(filePath)]:
    [[filePath, ...recentFiles.filter(f => f !== filePath)].slice(0, 10)]. *)
Definition updatedRecentFiles `{EqDecision A} (filePath : A) (recentFiles : list A)
  : list A :=
  take 10 (filePath :: List.filter (fun f => negb (bool_decide (f = filePath))) recentFiles).

(** The backend's [addToRecent]: the first occurrence is cut out, the path
    is put in front, the list is cut to 10. *)
Fixpoint removeFirst `{EqDecision A} (filePath : A) (recentFiles : list A) : list A :=
  match recentFiles with
  | [] => []
  | recent :: rest =>
      if bool_decide (recent = filePath) then rest
      else recent :: removeFirst filePath rest
  end.

Definition addToRecent `{EqDecision A} (filePath : A) (recentFiles : list A) : list A :=
  let recentFiles := removeFirst filePath recentFiles in
  let recentFiles := filePath :: recentFiles in
  if (10 <? length recentFiles)%nat then take 10 recentFiles else recentFiles.

(** The backend's [recentFiles] after [ReadFile] succeeded on [paths], in
    this order, since [NewApp]. *)
Definition recentAfterReads `{EqDecision A} (paths : list A) : list A :=
  foldl (fun recentFiles filePath => addToRecent filePath recentFiles) [] paths.

(** ** The editor: language, tabs, saving *)

Module Editor.

Section Language.

Variable toLowerCase : jsstring -> jsstring.

(** [getLanguageFromFileName(fileName)] *)
Definition getLanguageFromFileName (fileName : jsstring) : jsstring :=
  let ext := toLowerCase <$> last (splitOn 46 fileName) in
  let among (l : list jsstring) :=
    match ext with Some e => existsb (strEq e) l | None => false end in
  if among [lit "js"; lit "jsx"] then lit "javascript"
  else if among [lit "ts"; lit "tsx"] then lit "typescript"
  else if among [lit "py"] then lit "python"
  else if among [lit "go"] then lit "go"
  else if among [lit "rs"] then lit "rust"
  else if among [lit "java"] then lit "java"
  else if among [lit "cpp"; lit "cc"; lit "cxx"] then lit "cpp"
  else if among [lit "c"] then lit "c"
  else if among [lit "cs"] then lit "csharp"
  else if among [lit "php"] then lit "php"
  else if among [lit "rb"] then lit "ruby"
  else if among [lit "html"] then lit "html"
  else if among [lit "css"] then lit "css"
  else if among [lit "scss"] then lit "scss"
  else if among [lit "json"] then lit "json"
  else if among [lit "xml"] then lit "xml"
  else if among [lit "yaml"; lit "yml"] then lit "yaml"
  else if among [lit "md"] then lit "markdown"
  else if among [lit "sql"] then lit "sql"
  else if among [lit "sh"; lit "bash"] then lit "shell"
  else lit "plaintext".

End Language.

(** [interface Tab] *)
Record Tab : Type := mkTab {
  id : jsstring;
  name : jsstring;
  content : jsstring;
  isDirty : bool;
  filePath : option jsstring
}.

(** The cells of [Editor] the tab handlers read and write. *)
Record State : Type := mkState {
  tabs : list Tab;
  activeTab : jsstring;
  untitledCounter : Z;
  recentFiles : list jsstring
}.

Section NewFile.

(** The arithmetic of JavaScript numbers is taken as given: [numberToText n]
    is [`${n}`], the text of a number in a template literal, and [plusOne n]
    is [n + 1] as the language computes it (the exact sum below 2^53 only). *)
Variable numberToText : Z -> jsstring.
Variable plusOne : Z -> Z.

(** [createNewFile()]; [now] is [Date.now().toString()]. *)
Definition createNewFile (now : jsstring) (st : State) : State :=
  let fileName := lit "Untitled-" ++ numberToText (untitledCounter st) in
  let newTab := mkTab now fileName [] true None in
  mkState (tabs st ++ [newTab]) (id newTab) (plusOne (untitledCounter st))
    (recentFiles st).

End NewFile.

(** [openFileFromPath(filePath)]; [read] is what [ReadFile] returned ([None]:
    it failed, the handler only alerts), [now] is [Date.now().toString()]. *)
Definition openFileFromPath (read : option jsstring) (now : jsstring)
    (filePath : jsstring) (st : State) : State :=
  match read with
  | None => st
  | Some content =>
      let fileName := fileNameOf filePath in
      let updatedRecentFiles := updatedRecentFiles filePath (recentFiles st) in
      match List.find (fun tab => bool_decide (Editor.filePath tab = Some filePath))
              (tabs st) with
      | Some existingTab =>
          mkState (tabs st) (id existingTab) (untitledCounter st) updatedRecentFiles
      | None =>
          let newTab := mkTab now fileName content false (Some filePath) in
          mkState (tabs st ++ [newTab]) (id newTab) (untitledCounter st)
            updatedRecentFiles
      end
  end.

(** [tabs.filter(tab => tab.id !== x)] *)
Definition without (x : jsstring) (tabs : list Tab) : list Tab :=
  List.filter (fun tab => negb (strEq (id tab) x)) tabs.

(** [remainingTabs[remainingTabs.length - 1].id], or [''] without tabs. *)
Definition lastId (tabs : list Tab) : jsstring :=
  match last tabs with Some t => id t | None => [] end.

(** [closeCurrentTab()] *)
Definition closeCurrentTab (st : State) : State :=
  if truthy (activeTab st) then
    let remainingTabs := without (activeTab st) (tabs st) in
    mkState remainingTabs (lastId remainingTabs) (untitledCounter st) (recentFiles st)
  else st.

(** The close button of [tab] in the tab bar. *)
Definition closeTab (tab : Tab) (st : State) : State :=
  let newTabs := without (id tab) (tabs st) in
  let active :=
    if strEq (id tab) (activeTab st) && (0 <? length newTabs)%nat then lastId newTabs
    else if (length newTabs =? 0)%nat then []
    else activeTab st in
  mkState newTabs active (untitledCounter st) (recentFiles st).

(** [handleContentChange(value)] *)
Definition handleContentChange (value : option jsstring) (st : State) : State :=
  match value with
  | Some v =>
      if truthy (activeTab st) then
        mkState
          (map (fun tab => if strEq (id tab) (activeTab st)
                           then mkTab (id tab) (name tab) v true (filePath tab)
                           else tab) (tabs st))
          (activeTab st) (untitledCounter st) (recentFiles st)
      else st
  | None => st
  end.

(** What [saveCurrentFile] does with the tabs once [WriteFile] succeeded. *)
Definition markSaved (st : State) : State :=
  mkState
    (map (fun tab => if strEq (id tab) (activeTab st)
                     then mkTab (id tab) (name tab) (content tab) false (filePath tab)
                     else tab) (tabs st))
    (activeTab st) (untitledCounter st) (recentFiles st).

(** What [saveFileAs] does with the tabs once [WriteFile(filePath, ...)]
    succeeded. *)
Definition markSavedAs (filePath : jsstring) (st : State) : State :=
  let fileName := fileNameOf filePath in
  mkState
    (map (fun tab => if strEq (id tab) (activeTab st)
                     then mkTab (id tab) fileName (content tab) false (Some filePath)
                     else tab) (tabs st))
    (activeTab st) (untitledCounter st) (recentFiles st).

(** The menu entry Close Folder. *)
Definition closeFolder (st : State) : State :=
  mkState [] [] (untitledCounter st) (recentFiles st).

(** [saveCurrentFile] goes to [saveFileAs] (the dialog) rather than writing
    to the tab's path:
    [currentTab.name.startsWith('Untitled') || !currentTab.filePath]. *)
Definition savesThroughDialog (tab : Tab) : bool :=
  startsWith (name tab) (lit "Untitled") || negb (truthyOpt (filePath tab)).

(** The test of the auto-save timer:
    [currentTab.isDirty && currentTab.filePath && !currentTab.name.startsWith('Untitled')]. *)
Definition autoSaveDue (tab : Tab) : bool :=
  isDirty tab && truthyOpt (filePath tab) && negb (startsWith (name tab) (lit "Untitled")).

(** A click on [tab] in the tab bar: [setActiveTab(tab.id)]. *)
Definition selectTab (tab : Tab) (st : State) : State :=
  mkState (tabs st) (id tab) (untitledCounter st) (recentFiles st).

(** The active tab is none ([""]) or one of the tabs. *)
Definition activeOk (st : State) : Prop :=
  activeTab st = [] \/ exists tab, tab ∈ tabs st /\ id tab = activeTab st.

End Editor.

(** ** The launcher *)

(** [goUp] of the launcher: the path it navigates to,
    [browserPath.split('/').slice(0, -1).join('/') || '/']. *)
Definition goUp (browserPath : jsstring) : jsstring :=
  let parts := splitOn 47 browserPath in
  let parentPath := joinWith 47 (take (length parts - 1) parts) in
  if truthy parentPath then parentPath else lit "/".

(** The path the launcher navigates to or opens for an entry:
    [file.path || `${browserPath}/${file.name}`]. *)
Definition launcherPathOf (browserPath : jsstring) (f : FileItem) : jsstring :=
  pathOr f (browserPath ++ lit "/" ++ name f).

Section Launcher.

Variable toLowerCase : jsstring -> jsstring.

(** [browserFiles] after [loadBrowserFiles(path)]; [listed] is what
    [onListFiles(path)] resolved to ([None]: it was rejected). *)
Definition loadBrowserFiles (listed : option (list FileItem)) : list FileItem :=
  match listed with
  | Some fileList => take 100 fileList
  | None => []
  end.

(** [filteredBrowserFiles] *)
Definition filteredBrowserFiles (browserFiles : list FileItem) (query : jsstring)
  : list FileItem :=
  take 50 (List.filter
             (fun file => includes (toLowerCase (name file)) (toLowerCase query))
             browserFiles).

End Launcher.

(** ** The backend *)

Module Backend.

(** What [ioutil.ReadDir] reports of one entry: name (bytes), kind, size and
    modification time. *)
Record DirEntry {Time : Type} : Type := mkDirEntry {
  Name : list N;
  IsDir : bool;
  Size : Z;
  ModTime : Time
}.
Arguments DirEntry : clear implicits.

(** [type FileInfo struct] *)
Record FileInfo : Type := mkFileInfo {
  infoName : list N;
  infoPath : list N;
  infoIsDir : bool;
  infoSize : Z;
  infoModified : list N
}.

(** [strings.HasPrefix(s, prefix)] on bytes. *)
Definition HasPrefix (s prefix : list N) : bool := startsWith s prefix.

Section ListFiles.

Context {Time : Type}.
(** [ioutil.ReadDir] ([None]: it returned an error), [filepath.Join] and
    [Time.Format(time.RFC3339)] are taken as given. *)
Variable ReadDir : list N -> option (list (DirEntry Time)).
Variable Join : list N -> list N -> list N.
Variable FormatRFC3339 : Time -> list N.

(** The loop of [ListFiles] over the entries still to visit. *)
Fixpoint listLoop (dirPath : list N) (files : list (DirEntry Time))
    (fileInfos : list FileInfo) : list FileInfo :=
  match files with
  | [] => fileInfos
  | entry :: rest =>
      if HasPrefix (Name entry) (lit ".") then listLoop dirPath rest fileInfos
      else
        let filePath := Join dirPath (Name entry) in
        let fileInfo :=
          mkFileInfo (Name entry) filePath (IsDir entry) (Size entry)
            (FormatRFC3339 (ModTime entry)) in
        listLoop dirPath rest (fileInfos ++ [fileInfo])
  end.

(** [ListFiles(dirPath)]; [None] is the error of [ReadDir]. *)
Definition ListFiles (dirPath : list N) : option (list FileInfo) :=
  let dirPath := if bool_decide (dirPath = []) then lit "." else dirPath in
  match ReadDir dirPath with
  | None => None
  | Some files => Some (listLoop dirPath files [])
  end.

End ListFiles.

(** [CheckFilePermissions(filePath)] over what the system calls return:
    [mkdirErr] is the error of [os.MkdirAll(dir, 0755)], [statMode] the
    permission bits of [os.Stat(filePath)] when it succeeds, [writeErr] the
    error of the test write; [dir] is [filepath.Dir(filePath)].  The result
    is the text of the returned error, [None] for [nil]. *)
Definition CheckFilePermissions (filePath dir : jsstring)
    (mkdirErr : option jsstring) (statMode : option Z) (writeErr : option jsstring)
  : option jsstring :=
  match mkdirErr with
  | Some err => Some (lit "cannot create directory " ++ dir ++ lit ": " ++ err)
  | None =>
      let readOnly :=
        match statMode with
        | Some perm => (Z.land perm 128 =? 0)%Z
        | None => false
        end in
      if readOnly then Some (lit "file " ++ filePath ++ lit " is read-only")
      else
        match writeErr with
        | Some err =>
            Some (lit "no write permission in directory " ++ dir ++ lit ": " ++ err)
        | None => None
        end
  end.

End Backend.

(** The branch the [catch] of [saveCurrentFile] takes on the message of the
    error: the permission alert or the generic one. *)
Inductive SaveAlert : Type := PermissionDenied | ErrorSaving.

Definition saveAlert (errorMsg : jsstring) : SaveAlert :=
  if includes errorMsg (lit "permission") || includes errorMsg (lit "Permission")
     || includes errorMsg (lit "read-only")
  then PermissionDenied else ErrorSaving.

(** ** Renaming *)

(** [s.lastIndexOf(c)] for one code unit [c]: [-1] when [s] holds none. *)
Fixpoint lastIndexOf (s : jsstring) (c : N) : Z :=
  match s with
  | [] => (-1)%Z
  | u :: s' =>
      let i := lastIndexOf s' c in
      if (0 <=? i)%Z then (i + 1)%Z else if (u =? c)%N then 0%Z else (-1)%Z
  end.

(** [s.substring(0, e)]: an end below 0 counts as 0, one beyond the string
    as its length. *)
Definition substringTo (s : jsstring) (e : Z) : jsstring :=
  take (Z.to_nat (Z.max 0 e)) s.

(** The path [handleRename(newName, oldPath)] writes to or creates, [None]
    when it returns at once; [renamingItem] is the state cell of that name. *)
Definition handleRenameTarget (renamingItem : option jsstring)
    (newName oldPath : jsstring) : option jsstring :=
  if negb (truthy (trim newName)) || negb (truthyOpt renamingItem) then None
  else
    let parentPath := substringTo oldPath (lastIndexOf oldPath 47) in
    Some (parentPath ++ lit "/" ++ trim newName).

(** ** The file tree of the explorer *)

(** [f.path === p] for a string [p]. *)
Definition pathIs (f : FileItem) (p : jsstring) : bool :=
  bool_decide (path f = Some p).

Module Explorer.

(** [interface FileItem] with the fields of the tree: [isOpen?] and
    [children?] beside the entry itself. *)
#[warnings="-register-all"]
Inductive TreeItem : Type := mkTreeItem {
  item : FileItem;
  isOpen : option bool;
  children : option (list TreeItem)
}.

(** [item.isOpen] as a condition: [undefined] is falsy. *)
Definition truthyOpen (o : option bool) : bool :=
  match o with Some b => b | None => false end.

(** [item.type === 'folder'] *)
Definition isFolder (it : TreeItem) : bool := negb (isFile (item it)).

(** The callback of [items.map] in [updateTree] of the drawer's
    [toggleFolder(path)]. *)
Fixpoint updateTreeItem (path : jsstring) (it : TreeItem) : TreeItem :=
  if pathIs (item it) path && isFolder it then
    mkTreeItem (item it) (Some (negb (truthyOpen (isOpen it)))) (children it)
  else
    match children it with
    | Some ch => mkTreeItem (item it) (isOpen it) (Some (map (updateTreeItem path) ch))
    | None => it
    end.

Definition updateTree (path : jsstring) (items : list TreeItem) : list TreeItem :=
  map (updateTreeItem path) items.

(** [fileTree] after [toggleFolder(path)] of the drawer. *)
Definition drawerToggleFolder (path : jsstring) (fileTree : list TreeItem)
  : list TreeItem :=
  updateTree path fileTree.

(** Every item of the tree carries [isOpen]. *)
Fixpoint opennessKnown (it : TreeItem) : bool :=
  match isOpen it with Some _ => true | None => false end
  && match children it with
     | Some ch => forallb opennessKnown ch
     | None => true
     end.

Section Tree.

Context {World : Type}.
(** The binding [ListFiles(path)] of the backend: the array it resolves to,
    or [None] when it is rejected. *)
Variable ListFiles : jsstring -> World -> option (list Backend.FileInfo) * World.

(** The object [loadFolderChildren] and [refreshFileList] build for an
    entry of the backend. *)
Definition treeItemOf (info : Backend.FileInfo) : TreeItem :=
  mkTreeItem
    (mkFileItem (Backend.infoName info)
       (if Backend.infoIsDir info then folder else file)
       (Some (Backend.infoPath info)) (Some (Backend.infoSize info))
       (Some (Backend.infoModified info)))
    (Some false)
    (if Backend.infoIsDir info then Some [] else None).

(** [loadFolderChildren(folderPath)] *)
Definition loadFolderChildren (folderPath : jsstring) (w : World)
  : list TreeItem * World :=
  match ListFiles folderPath w with
  | (Some fileList, w') => (map treeItemOf fileList, w')
  | (None, w') => ([], w')
  end.

Section Loop.

Variable body : TreeItem -> World -> TreeItem * World.

(** The loop [for (const item of itemList)] of [updateItems], each round
    pushing what [body] makes of the item. *)
Fixpoint updateLoop (itemList : list TreeItem) (w : World) : list TreeItem * World :=
  match itemList with
  | [] => ([], w)
  | it :: rest =>
      let '(it', w1) := body it w in
      let '(rest', w2) := updateLoop rest w1 in
      (it' :: rest', w2)
  end.

End Loop.

(** The test of [updateItems] for the folder that was clicked. *)
Definition isClicked (folderName folderPath : jsstring) (it : TreeItem) : bool :=
  strEq (name (item it)) folderName && isFolder it
  && pathIs (item it) folderPath.

(** One round of the loop of [updateItems]. *)
Fixpoint updateItem (folderName folderPath : jsstring) (it : TreeItem) (w : World)
  : TreeItem * World :=
  if isClicked folderName folderPath it then
    if negb (truthyOpen (isOpen it))
       && match children it with
          | Some ch => (length ch =? 0)%nat
          | None => true
          end
    then
      let '(ch, w') := loadFolderChildren (pathOr (item it) []) w in
      (mkTreeItem (item it) (Some true) (Some ch), w')
    else (mkTreeItem (item it) (Some (negb (truthyOpen (isOpen it)))) (children it), w)
  else
    match children it with
    | Some ch =>
        let '(updatedChildren, w') :=
          updateLoop (updateItem folderName folderPath) ch w in
        (mkTreeItem (item it) (isOpen it) (Some updatedChildren), w')
    | None => (it, w)
    end.

(** [toggleFolder(folderName, folderPath, items)] *)
Definition toggleFolder (folderName folderPath : jsstring) (items : list TreeItem)
    (w : World) : list TreeItem * World :=
  updateLoop (updateItem folderName folderPath) items w.

(** Every clicked folder the loop reaches carries [isOpen] and has children
    loaded. *)
Fixpoint expanded (folderName folderPath : jsstring) (it : TreeItem) : bool :=
  if isClicked folderName folderPath it then
    match isOpen it, children it with
    | Some _, Some (_ :: _) => true
    | _, _ => false
    end
  else
    match children it with
    | Some ch => forallb (expanded folderName folderPath) ch
    | None => true
    end.

(** A collapse or expand that loads nothing: a change of the item alone that
    a second one undoes. *)
Definition flips (folderName folderPath : jsstring) (it : TreeItem) : Prop :=
  exists it',
    (forall w, updateItem folderName folderPath it w = (it', w))
    /\ (forall w, updateItem folderName folderPath it' w = (it, w)).

End Tree.

End Explorer.

(** A tree as [refreshFileList] and a click on [src] leave it: [src] open
    with its file loaded. *)
Definition projTree : list Explorer.TreeItem :=
  [Explorer.mkTreeItem
     (mkFileItem (lit "src") folder (Some (lit "/proj/src")) (Some 4096%Z)
        (Some (lit "2024-01-01T00:00:00Z")))
     (Some true)
     (Some [Explorer.mkTreeItem
              (mkFileItem (lit "main.go") file (Some (lit "/proj/src/main.go"))
                 (Some 2048%Z) (Some (lit "2024-01-01T00:00:00Z")))
              (Some false) None]);
   Explorer.mkTreeItem
     (mkFileItem (lit "Readme.md") file (Some (lit "/proj/Readme.md")) (Some 1024%Z)
        (Some (lit "2024-01-01T00:00:00Z")))
     (Some false) None].

(** A backend whose world is the number of [ListFiles] calls made. *)
Definition countingListFiles (p : jsstring) (calls : nat)
  : option (list Backend.FileInfo) * nat :=
  (Some [], S calls).

(** ** Facts about the builtins *)

Lemma startsWith_prefix (s t : jsstring) : startsWith s t = true <-> t `prefix_of` s.
Proof.
  revert s. induction t as [|b t IH]; intros s; simpl.
  - split; [intros _; apply prefix_nil | reflexivity].
  - destruct s as [|a s].
    + split; [discriminate | intros H; apply prefix_nil_inv in H; discriminate].
    + rewrite andb_true_iff, N.eqb_eq, IH. split.
      * intros [-> H]. by apply prefix_cons.
      * intros H. split.
        -- symmetry. eapply prefix_cons_inv_1, H.
        -- eapply prefix_cons_inv_2, H.
Qed.

Lemma startsWith_refl (s : jsstring) : startsWith s s = true.
Proof. by apply startsWith_prefix. Qed.

Lemma includes_infix (s t : jsstring) :
  includes s t = true <-> exists a b, s = a ++ t ++ b.
Proof.
  induction s as [|u s IH].
  - simpl. rewrite orb_false_r, startsWith_prefix. split.
    + intros [k Hk]. exists [], k. done.
    + intros (a & b & H). symmetry in H.
      apply app_eq_nil in H as [-> H]. apply app_eq_nil in H as [-> _].
      apply prefix_nil.
  - cbn [includes]. rewrite orb_true_iff, startsWith_prefix, IH. split.
    + intros [[k Hk] | (a & b & ->)].
      * exists [], k. done.
      * exists (u :: a), b. done.
    + intros (a & b & H). destruct a as [|u' a].
      * left. exists b. done.
      * right. injection H as -> ->. eauto.
Qed.

Lemma includes_refl (s : jsstring) : includes s s = true.
Proof. apply includes_infix. exists [], []. by rewrite app_nil_r. Qed.

Lemma strEq_true (s t : jsstring) : strEq s t = true <-> s = t.
Proof. unfold strEq. apply bool_decide_eq_true. Qed.

Lemma codePoints_units (s : jsstring) :
  hasSurrogatePair s = false -> codePoints s = map (fun u => [u]) s.
Proof.
  induction s as [|u s IH]; [reflexivity|].
  destruct s as [|v s]; [reflexivity|].
  change (hasSurrogatePair (u :: v :: s))
    with (isHighSurrogate u && isLowSurrogate v || hasSurrogatePair (v :: s)).
  change (codePoints (u :: v :: s))
    with (if isHighSurrogate u && isLowSurrogate v
          then [u; v] :: codePoints s else [u] :: codePoints (v :: s)).
  intros H. apply orb_false_iff in H as [-> H]. rewrite IH by exact H. reflexivity.
Qed.

Lemma seqBonus_nil_r `{EqDecision A} (name : list A) : seqBonus name [] = 0%Z.
Proof. by destruct name. Qed.

Lemma seqBonus_refl `{EqDecision A} (s : list A) :
  seqBonus s s = (15 * Z.of_nat (length s))%Z.
Proof.
  induction s as [|c s IH]; [reflexivity|].
  cbn [seqBonus length]. rewrite bool_decide_eq_true_2 by done. lia.
Qed.

Lemma seqBonus_bounds `{EqDecision A} (name query : list A) :
  (0 <= seqBonus name query <= 15 * Z.of_nat (length query))%Z.
Proof.
  revert query. induction name as [|c name IH]; intros query; simpl; [lia|].
  destruct query as [|q query]; simpl; [lia|].
  case_bool_decide.
  - specialize (IH query). lia.
  - specialize (IH (q :: query)). simpl in IH. lia.
Qed.

(** ** The sequential walk *)

Lemma walk_nil_term (cs : list jsstring) (s : Z) : walk [] cs s 0 = (s, 0%nat).
Proof. destruct cs; reflexivity. Qed.

Lemma walk_bounds (term : jsstring) (cs : list jsstring) (s : Z) (i : nat) :
  (i <= length term)%nat ->
  (s <= fst (walk term cs s i) <= s + 15 * (Z.of_nat (length term) - Z.of_nat i))%Z.
Proof.
  revert s i. induction cs as [|c cs IH]; intros s i Hi; simpl; [lia|].
  case_bool_decide as Hc.
  - assert (i < length term)%nat as Hlt.
    { unfold charAt in Hc. destruct (term !! i) eqn:E; [|discriminate].
      by eapply lookup_lt_Some. }
    case_bool_decide; simpl; [lia|].
    specialize (IH (s + 15)%Z (S i)). lia.
  - case_bool_decide; simpl; [lia|].
    specialize (IH s i). lia.
Qed.

(** On a name the iterator delivers unit by unit, the loop of the source is
    the walk of the specification. *)
Lemma walk_units (term cs : jsstring) (s : Z) (i : nat) :
  (i < length term)%nat ->
  fst (walk term (map (fun u => [u]) cs) s i) = (s + seqBonus cs (drop i term))%Z.
Proof.
  revert s i. induction cs as [|u cs IH]; intros s i Hi.
  - simpl. lia.
  - destruct (lookup_lt_is_Some_2 term i Hi) as [q Hq].
    rewrite (drop_S _ _ _ Hq). cbn [map walk seqBonus].
    unfold charAt. rewrite Hq.
    destruct (decide (u = q)) as [->|Hne].
    + rewrite (bool_decide_eq_true_2 (Some [q] = Some [q])) by done.
      rewrite (bool_decide_eq_true_2 (q = q)) by done.
      case_bool_decide as Hend.
      * rewrite Hend, drop_all, seqBonus_nil_r. simpl. lia.
      * rewrite IH by lia. lia.
    + rewrite (bool_decide_eq_false_2 (Some [u] = Some [q])) by congruence.
      rewrite (bool_decide_eq_false_2 (u = q)) by done.
      rewrite bool_decide_eq_false_2 by lia.
      rewrite IH by lia. by rewrite (drop_S _ _ _ Hq).
Qed.


(** The query cursor cannot pass a position whose unit no element equals. *)
Lemma walk_stuck (term : jsstring) (cs : list jsstring) (s : Z) (i p : nat) :
  (forall c, c ∈ cs -> Some c <> charAt term p) -> (i <= p)%nat ->
  (fst (walk term cs s i) <= s + 15 * (Z.of_nat p - Z.of_nat i))%Z.
Proof.
  revert s i. induction cs as [|c cs IH]; intros s i Hp Hi; simpl; [lia|].
  assert (forall c', c' ∈ cs -> Some c' <> charAt term p) as Hp'.
  { intros c' Hc'. apply Hp. by right. }
  case_bool_decide as Hc.
  - assert (i <> p) as Hne.
    { intros ->. by apply (Hp c); [left|]. }
    case_bool_decide; simpl; [lia|].
    specialize (IH (s + 15)%Z (S i) Hp' ltac:(lia)). lia.
  - case_bool_decide; simpl; [lia|].
    specialize (IH s i Hp' Hi). lia.
Qed.

Lemma charAt_unitsBeforePair (term : jsstring) :
  charAt term (unitsBeforePair term) = None
  \/ exists h, charAt term (unitsBeforePair term) = Some [h] /\ isHighSurrogate h = true.
Proof.
  induction term as [|u term IH]; [by left|].
  destruct term as [|v term]; [by left|].
  change (unitsBeforePair (u :: v :: term))
    with (if isHighSurrogate u && isLowSurrogate v then 0%nat
          else S (unitsBeforePair (v :: term))).
  destruct (isHighSurrogate u && isLowSurrogate v) eqn:E.
  - right. exists u. apply andb_true_iff in E as [-> _]. done.
  - exact IH.
Qed.

(** Walking the query itself consumes at least the units in front of its
    first surrogate pair. *)
Lemma walk_self (term rest pre : jsstring) (s : Z) :
  term = pre ++ rest ->
  (s + 15 * Z.of_nat (unitsBeforePair rest)
   <= fst (walk term (codePoints rest) s (length pre)))%Z.
Proof.
  revert pre s. induction rest as [|u rest IH]; intros pre s Hterm; [simpl; lia|].
  assert (charAt term (length pre) = Some [u]) as Hu.
  { unfold charAt. subst term. by rewrite list_lookup_middle. }
  destruct rest as [|v rest].
  - cbn [codePoints unitsBeforePair walk]. rewrite Hu.
    rewrite bool_decide_eq_true_2 by done. case_bool_decide; simpl; lia.
  - change (unitsBeforePair (u :: v :: rest))
      with (if isHighSurrogate u && isLowSurrogate v then 0%nat
            else S (unitsBeforePair (v :: rest))).
    change (codePoints (u :: v :: rest))
      with (if isHighSurrogate u && isLowSurrogate v
            then [u; v] :: codePoints rest else [u] :: codePoints (v :: rest)).
    destruct (isHighSurrogate u && isLowSurrogate v).
    + pose proof (walk_bounds term ([u; v] :: codePoints rest) s (length pre)) as Hb.
      assert (length pre <= length term)%nat
        by (subst term; rewrite length_app; lia).
      specialize (Hb ltac:(done)). lia.
    + cbn [walk]. rewrite Hu. rewrite bool_decide_eq_true_2 by done.
      rewrite bool_decide_eq_false_2
        by (subst term; rewrite length_app; simpl; lia).
      specialize (IH (pre ++ [u]) (s + 15)%Z).
      rewrite length_app in IH. cbn [length] in IH.
      replace (length pre + 1)%nat with (S (length pre)) in IH by lia.
      specialize (IH ltac:(by rewrite <- app_assoc)). lia.
Qed.

(** A walk that awarded something met an element equal to the unit under the
    cursor it started from. *)
Lemma walk_gain (term : jsstring) (cs : list jsstring) (s : Z) (i : nat) :
  (s < fst (walk term cs s i))%Z -> exists c, c ∈ cs /\ Some c = charAt term i.
Proof.
  revert s i. induction cs as [|c cs IH]; intros s i; simpl; [lia|].
  case_bool_decide as Hc.
  - intros _. exists c. split; [by left|done].
  - case_bool_decide; simpl; [lia|].
    intros H'. destruct (IH _ _ H') as (c' & Hc' & Heq).
    exists c'. split; [by right|done].
Qed.

Lemma codePoints_elem (s : jsstring) (c : jsstring) (u : N) :
  c ∈ codePoints s -> u ∈ c -> u ∈ s.
Proof.
  remember (length s) as n eqn:Hn. revert s Hn.
  induction n as [n IH] using lt_wf_ind. intros s Hn Hc Hu.
  destruct s as [|a s]; [by apply elem_of_nil in Hc|].
  destruct s as [|b s].
  - cbn [codePoints] in Hc. apply elem_of_cons in Hc as [->|Hc]; [done|].
    by apply elem_of_nil in Hc.
  - change (codePoints (a :: b :: s))
      with (if isHighSurrogate a && isLowSurrogate b
            then [a; b] :: codePoints s else [a] :: codePoints (b :: s)) in Hc.
    destruct (isHighSurrogate a && isLowSurrogate b).
    + apply elem_of_cons in Hc as [->|Hc].
      * rewrite !elem_of_cons, elem_of_nil in Hu. rewrite !elem_of_cons. tauto.
      * do 2 right. eapply (IH (length s)); [simpl in Hn; lia|done|done|done].
    + apply elem_of_cons in Hc as [->|Hc].
      * rewrite !elem_of_cons, elem_of_nil in Hu. rewrite !elem_of_cons. tauto.
      * right. eapply (IH (length (b :: s))); [simpl in *; lia|done|done|done].
Qed.

Lemma seqBonus_first (name rest : jsstring) (u : N) :
  u ∈ name -> (15 <= seqBonus name (u :: rest))%Z.
Proof.
  induction name as [|c name IH]; intros Hu; [by apply elem_of_nil in Hu|].
  cbn [seqBonus]. case_bool_decide as Hc.
  - pose proof (seqBonus_bounds name rest). lia.
  - apply elem_of_cons in Hu as [->|Hu]; [done|]. by apply IH.
Qed.

(** ** The stable sort by descending score *)

Lemma sortInsert_perm {A} (cmp : A -> A -> Z) (x : A) (l : list A) :
  sortInsert cmp x l ≡ₚ x :: l.
Proof.
  induction l as [|y l IH]; simpl; [done|].
  destruct (cmp x y >? 0)%Z; [|done].
  rewrite IH. apply Permutation_swap.
Qed.

Lemma sort_perm {A} (cmp : A -> A -> Z) (l : list A) : sort cmp l ≡ₚ l.
Proof.
  induction l as [|x l IH]; simpl; [done|].
  unfold sort in *. simpl. by rewrite sortInsert_perm, IH.
Qed.

Lemma sortInsert_sorted (x : FileItem * Z) (l : list (FileItem * Z)) :
  StronglySorted scoreGe l -> StronglySorted scoreGe (sortInsert byScoreDesc x l).
Proof.
  induction 1 as [|y l Hl IH Hy]; simpl.
  - repeat constructor.
  - destruct (byScoreDesc x y >? 0)%Z eqn:E.
    + constructor; [exact IH|].
      rewrite sortInsert_perm. constructor; [|exact Hy].
      unfold scoreGe, byScoreDesc in *. lia.
    + constructor; [by constructor|].
      assert (scoreGe x y) as Hxy by (unfold scoreGe, byScoreDesc in *; lia).
      constructor; [exact Hxy|].
      eapply Forall_impl; [exact Hy|]. unfold scoreGe in *. intros; lia.
Qed.

Lemma sort_sorted (l : list (FileItem * Z)) : StronglySorted scoreGe (sort byScoreDesc l).
Proof.
  induction l as [|x l IH]; [constructor|]. by apply sortInsert_sorted.
Qed.

(** Stability: the entries of any one score keep their order. *)
Lemma sortInsert_stable (k : Z) (x : FileItem * Z) (l : list (FileItem * Z)) :
  List.filter (fun p => snd p =? k)%Z (sortInsert byScoreDesc x l)
  = List.filter (fun p => snd p =? k)%Z (x :: l).
Proof.
  induction l as [|y l IH]; [reflexivity|].
  cbn [sortInsert]. destruct (byScoreDesc x y >? 0)%Z eqn:E; [|reflexivity].
  cbn [List.filter] in *. rewrite IH.
  destruct (snd x =? k)%Z eqn:Ex, (snd y =? k)%Z eqn:Ey; try reflexivity.
  unfold byScoreDesc in E. lia.
Qed.

Lemma sort_stable (k : Z) (l : list (FileItem * Z)) :
  List.filter (fun p => snd p =? k)%Z (sort byScoreDesc l)
  = List.filter (fun p => snd p =? k)%Z l.
Proof.
  induction l as [|x l IH]; [reflexivity|].
  change (sort byScoreDesc (x :: l)) with (sortInsert byScoreDesc x (sort byScoreDesc l)).
  rewrite sortInsert_stable. cbn [List.filter]. by rewrite IH.
Qed.

(** The result of a stable sort is determined by its two properties: any
    descending arrangement that keeps the order within each score is the
    one [sort] computes, whatever the algorithm of the engine. *)
Lemma stable_sorted_unique (l1 l2 : list (FileItem * Z)) :
  StronglySorted scoreGe l1 -> StronglySorted scoreGe l2 ->
  (forall k, List.filter (fun p => snd p =? k)%Z l1
             = List.filter (fun p => snd p =? k)%Z l2) ->
  l1 = l2.
Proof.
  intros H1. revert l2. induction H1 as [|x l1 Hs1 IH Hx]; intros l2 H2 Heq.
  - destruct l2 as [|y l2]; [done|].
    specialize (Heq (snd y)). cbn [List.filter] in Heq.
    rewrite Z.eqb_refl in Heq. discriminate.
  - destruct H2 as [|y l2 Hs2 Hy].
    { specialize (Heq (snd x)). cbn [List.filter] in Heq.
      rewrite Z.eqb_refl in Heq. discriminate. }
    assert (forall (a : FileItem * Z) l b, Forall (scoreGe a) l ->
              In b (List.filter (fun p => snd p =? snd b)%Z (a :: l)) ->
              (snd b <= snd a)%Z) as Hmax.
    { intros a l b Hall Hin. apply filter_In in Hin as [[->|Hin] _]; [lia|].
      rewrite Forall_forall in Hall. apply Hall. by apply list_elem_of_In. }
    assert (snd x = snd y) as Hxy.
    { apply Z.le_antisymm.
      - apply (Hmax y l2 x Hy). rewrite <- Heq. cbn [List.filter].
        rewrite Z.eqb_refl. by left.
      - apply (Hmax x l1 y Hx). rewrite Heq. cbn [List.filter].
        rewrite Z.eqb_refl. by left. }
    pose proof (Heq (snd x)) as Hk. cbn [List.filter] in Hk.
    rewrite <- Hxy, Z.eqb_refl in Hk. injection Hk as -> Hk.
    f_equal. apply IH; [done|]. intros k. specialize (Heq k).
    cbn [List.filter] in Heq. destruct (snd y =? k)%Z; [by injection Heq|done].
Qed.

Lemma sort_unique (l l' : list (FileItem * Z)) :
  StronglySorted scoreGe l' ->
  (forall k, List.filter (fun p => snd p =? k)%Z l'
             = List.filter (fun p => snd p =? k)%Z l) ->
  l' = sort byScoreDesc l.
Proof.
  intros Hs Hk. apply stable_sorted_unique; [done|apply sort_sorted|].
  intros k. by rewrite sort_stable.
Qed.

Lemma filter_prefix {A} (P : A -> bool) (l1 l2 : list A) :
  l1 `prefix_of` l2 -> List.filter P l1 `prefix_of` List.filter P l2.
Proof. intros [k ->]. rewrite List.filter_app. by eexists. Qed.

Section RankerFacts.

Variable toLowerCase : jsstring -> jsstring.

(** The score is the walk started from the sum of the four tests. *)
Lemma score_as_walk (Q : jsstring) (f : FileItem) :
  score toLowerCase (toLowerCase Q) f
  = fst (walk (toLowerCase Q) (codePoints (toLowerCase (name f)))
           (specBase toLowerCase Q f) 0).
Proof.
  unfold score, specBase, strEq. do 2 f_equal.
  destruct (bool_decide (toLowerCase (name f) = toLowerCase Q)),
    (startsWith (toLowerCase (name f)) (toLowerCase Q)),
    (includes (toLowerCase (name f)) (toLowerCase Q)),
    (includes (toLowerCase (pathOr f [])) (toLowerCase Q)); reflexivity.
Qed.

Lemma specBase_nonneg (Q : jsstring) (f : FileItem) : (0 <= specBase toLowerCase Q f)%Z.
Proof. unfold specBase. repeat case_match; lia. Qed.

(** Where the lowercased name has no character outside the Basic
    Multilingual Plane, [score] is the sum the specification describes. *)
Lemma score_specScore (Q : jsstring) (f : FileItem) :
  hasSurrogatePair (toLowerCase (name f)) = false ->
  score toLowerCase (toLowerCase Q) f = specScore toLowerCase Q f.
Proof.
  intros Hbmp. rewrite score_as_walk. unfold specScore.
  rewrite (codePoints_units _ Hbmp).
  destruct (toLowerCase Q) as [|q term] eqn:E.
  - rewrite walk_nil_term, seqBonus_nil_r. simpl. lia.
  - rewrite walk_units by (simpl; lia). rewrite drop_0. reflexivity.
Qed.

(** A positive score is positive as the specification computes it, with
    characters read as code units. *)
Lemma score_pos_specScore (Q : jsstring) (f : FileItem) :
  (0 < score toLowerCase (toLowerCase Q) f)%Z -> (0 < specScore toLowerCase Q f)%Z.
Proof.
  rewrite score_as_walk. unfold specScore. intros Hpos.
  pose proof (specBase_nonneg Q f) as Hb.
  pose proof (seqBonus_bounds (toLowerCase (name f)) (toLowerCase Q)) as Hs.
  destruct (decide (0 < specBase toLowerCase Q f)%Z) as [|Hz]; [lia|].
  assert (specBase toLowerCase Q f = 0%Z) as Hb0 by lia. rewrite Hb0 in *.
  apply walk_gain in Hpos as (c & Hc & Heq).
  unfold charAt in Heq. destruct (toLowerCase Q) as [|u rest]; [discriminate|].
  injection Heq as ->.
  pose proof (seqBonus_first (toLowerCase (name f)) rest u) as H15.
  specialize (H15 ltac:(eapply codePoints_elem; [exact Hc|by left])). lia.
Qed.

Lemma score_nonneg (term : jsstring) (f : FileItem) : (0 <= score toLowerCase term f)%Z.
Proof.
  unfold score, strEq.
  match goal with |- (_ <= fst (walk _ ?cs ?b 0))%Z =>
    pose proof (walk_bounds term cs b 0 ltac:(lia)) as H; assert (0 <= b)%Z end.
  { repeat case_match; lia. }
  lia.
Qed.

Lemma score_nonexact_le (term : jsstring) (f : FileItem) :
  toLowerCase (name f) <> term ->
  (score toLowerCase term f <= 870 + 15 * Z.of_nat (length term))%Z.
Proof.
  intros Hne. unfold score, strEq. rewrite bool_decide_eq_false_2 by done.
  match goal with |- (fst (walk _ ?cs ?b 0) <= _)%Z =>
    pose proof (walk_bounds term cs b 0 ltac:(lia)) as H; assert (b <= 870)%Z end.
  { repeat case_match; lia. }
  lia.
Qed.

Lemma score_exact_ge (term : jsstring) (f : FileItem) :
  toLowerCase (name f) = term -> (1650 <= score toLowerCase term f)%Z.
Proof.
  intros He. unfold score, strEq. rewrite He.
  rewrite bool_decide_eq_true_2, startsWith_refl, includes_refl by done.
  match goal with |- (_ <= fst (walk _ ?cs ?b 0))%Z =>
    pose proof (walk_bounds term cs b 0 ltac:(lia)) as H; assert (1650 <= b)%Z end.
  { case_match; lia. }
  lia.
Qed.

Lemma score_exact_units (term : jsstring) (f : FileItem) :
  toLowerCase (name f) = term -> hasSurrogatePair term = false ->
  (1650 + 15 * Z.of_nat (length term) <= score toLowerCase term f)%Z.
Proof.
  intros He Hbmp. unfold score, strEq. rewrite He.
  rewrite bool_decide_eq_true_2, startsWith_refl, includes_refl by done.
  rewrite (codePoints_units _ Hbmp).
  destruct term as [|u term].
  - rewrite walk_nil_term. simpl. case_match; lia.
  - rewrite walk_units by (simpl; lia). rewrite drop_0, seqBonus_refl.
    case_match; lia.
Qed.

Lemma score_exact_before_pair (term : jsstring) (f : FileItem) :
  toLowerCase (name f) = term ->
  (1650 + 15 * Z.of_nat (unitsBeforePair term) <= score toLowerCase term f)%Z.
Proof.
  intros He. unfold score, strEq. rewrite He.
  rewrite bool_decide_eq_true_2, startsWith_refl, includes_refl by done.
  match goal with |- (_ <= fst (walk _ _ ?b 0))%Z =>
    pose proof (walk_self term term [] b eq_refl) as H; assert (1650 <= b)%Z end.
  { case_match; lia. }
  cbn [length] in H. lia.
Qed.

Lemma score_nonexact_before_pair (term : jsstring) (f : FileItem) :
  toLowerCase (name f) <> term ->
  hasUnpairedHigh (toLowerCase (name f)) = false ->
  (score toLowerCase term f <= 870 + 15 * Z.of_nat (unitsBeforePair term))%Z.
Proof.
  intros Hne Hwf. unfold score, strEq. rewrite bool_decide_eq_false_2 by done.
  match goal with |- (fst (walk _ ?cs ?b 0) <= _)%Z =>
    pose proof (walk_stuck term cs b 0 (unitsBeforePair term)) as H;
    assert (b <= 870)%Z end.
  { repeat case_match; lia. }
  assert (forall c, c ∈ codePoints (toLowerCase (name f)) ->
                    Some c <> charAt term (unitsBeforePair term)) as Hc.
  { intros c Hc Heq.
    destruct (charAt_unitsBeforePair term) as [Hnone|(h & Hh & Hhigh)];
      [congruence|].
    rewrite Hh in Heq. injection Heq as ->.
    unfold hasUnpairedHigh in Hwf.
    assert (existsb (fun c => match c with [u] => isHighSurrogate u | _ => false end)
              (codePoints (toLowerCase (name f))) = true) as Hex; [|congruence].
    apply existsb_exists. exists [h]. split; [by apply list_elem_of_In|done]. }
  specialize (H Hc ltac:(lia)). lia.
Qed.

(** Under any of the three conditions an exact match outscores a candidate
    that is not one. *)
Lemma score_exact_gt (q : jsstring) (e n : FileItem) :
  hasSurrogatePair (toLowerCase q) = false
  \/ (length (toLowerCase q) <= 51)%nat
  \/ hasUnpairedHigh (toLowerCase (name n)) = false ->
  exactMatch toLowerCase q e -> ~ exactMatch toLowerCase q n ->
  (score toLowerCase (toLowerCase q) n < score toLowerCase (toLowerCase q) e)%Z.
Proof.
  unfold exactMatch. intros Hq He Hn.
  pose proof (score_nonexact_le _ _ Hn).
  destruct Hq as [Hq|[Hq|Hq]].
  - pose proof (score_exact_units _ _ He Hq). lia.
  - pose proof (score_exact_ge _ _ He). lia.
  - pose proof (score_exact_before_pair _ _ He).
    pose proof (score_nonexact_before_pair _ _ Hn Hq). lia.
Qed.

(** The scored entries that survive [filter(Boolean)]. *)
Lemma scored_elem (term : jsstring) (items : list FileItem) (p : FileItem * Z) :
  p ∈ omap (scored toLowerCase term) items <->
  fst p ∈ items /\ snd p = score toLowerCase term (fst p) /\ (0 < snd p)%Z.
Proof.
  rewrite list_elem_of_omap. unfold scored. split.
  - intros (f & Hf & H). destruct (score toLowerCase term f >? 0)%Z eqn:E; [|done].
    injection H as <-. simpl. split_and!; [done..|lia].
  - intros (Hf & Hs & Hpos). exists (fst p). split; [done|].
    rewrite <- Hs. destruct (snd p >? 0)%Z eqn:E; [by destruct p|lia].
Qed.

Lemma scored_fst (term : jsstring) (items : list FileItem) :
  map fst (omap (scored toLowerCase term) items)
  = List.filter (fun f => 0 <? score toLowerCase term f)%Z items.
Proof.
  induction items as [|f items IH]; [reflexivity|].
  cbn [omap list_omap List.filter]. unfold scored at 1.
  destruct (score toLowerCase term f >? 0)%Z eqn:E.
  - replace (0 <? score toLowerCase term f)%Z with true by lia.
    cbn [map fst]. by rewrite <- IH.
  - replace (0 <? score toLowerCase term f)%Z with false by lia. exact IH.
Qed.

Lemma ranked_elem (q : jsstring) (items : list FileItem) (p : FileItem * Z) :
  p ∈ ranked toLowerCase q items ->
  fst p ∈ items /\ snd p = score toLowerCase (toLowerCase q) (fst p) /\ (0 < snd p)%Z.
Proof.
  intros Hp. apply scored_elem. rewrite <- (sort_perm byScoreDesc).
  eapply elem_of_prefix; [exact Hp | apply prefix_take].
Qed.

Lemma ranked_sorted (q : jsstring) (items : list FileItem) :
  StronglySorted scoreGe (ranked toLowerCase q items).
Proof.
  unfold ranked.
  pose proof (sort_sorted (omap (scored toLowerCase (toLowerCase q)) items)) as H.
  rewrite <- (take_drop 50 (sort byScoreDesc _)) in H.
  by apply StronglySorted_app_1_l in H.
Qed.

Lemma filter_fst {A B} (P : A -> bool) (l : list (A * B)) :
  List.filter P (map fst l) = map fst (List.filter (fun p => P (fst p)) l).
Proof.
  induction l as [|p l IH]; [reflexivity|].
  cbn [map List.filter]. destruct (P (fst p)); cbn [map]; by rewrite IH.
Qed.

Lemma filter_filter_keep {A} (P Q : A -> bool) (l : list A) :
  (forall x, P x = true -> Q x = true) ->
  List.filter P (List.filter Q l) = List.filter P l.
Proof.
  intros H. induction l as [|x l IH]; [reflexivity|].
  cbn [List.filter]. destruct (Q x) eqn:EQ; cbn [List.filter].
  - by rewrite IH.
  - destruct (P x) eqn:EP; [|exact IH]. rewrite (H _ EP) in EQ. discriminate.
Qed.

Lemma filter_filter_none {A} (P Q : A -> bool) (l : list A) :
  (forall x, P x = true -> Q x = false) ->
  List.filter P (List.filter Q l) = [].
Proof.
  intros H. induction l as [|x l IH]; [reflexivity|].
  cbn [List.filter]. destruct (Q x) eqn:EQ; cbn [List.filter]; [|exact IH].
  destruct (P x) eqn:EP; [|exact IH]. rewrite (H _ EP) in EQ. discriminate.
Qed.

(** Filtering the pairs of a given score is filtering by the score of the entry. *)
Lemma filter_score_pairs (term : jsstring) (k : Z) (l : list (FileItem * Z)) :
  (forall p, p ∈ l -> snd p = score toLowerCase term (fst p)) ->
  map fst (List.filter (fun p => snd p =? k)%Z l)
  = List.filter (fun f => score toLowerCase term f =? k)%Z (map fst l).
Proof.
  intros H. rewrite filter_fst. f_equal. apply List.filter_ext_in.
  intros p Hp. apply list_elem_of_In in Hp. by rewrite (H p Hp).
Qed.

Lemma fuzzySearch_elem (q : jsstring) (items : list FileItem) (f : FileItem) :
  f ∈ fuzzySearch toLowerCase q items ->
  f ∈ items /\ (0 < score toLowerCase (toLowerCase q) f)%Z.
Proof.
  unfold fuzzySearch. intros Hf.
  apply list_elem_of_fmap in Hf as (p & -> & Hp).
  apply ranked_elem in Hp as (Hin & Hs & Hpos). split; [done|lia].
Qed.

(** C3: every entry [fuzzySearch] returns is one of the candidates and has
    a strictly positive score, as the source computes it and as the
    specification words it; a candidate of score 0 is never returned. *)
Theorem fuzzySearch_scores_positive (q : jsstring) (items : list FileItem) (f : FileItem) :
  f ∈ fuzzySearch toLowerCase q items ->
  f ∈ items
  /\ (0 < score toLowerCase (toLowerCase q) f)%Z
  /\ score toLowerCase (toLowerCase q) f <> 0%Z
  /\ (0 < specScore toLowerCase q f)%Z.
Proof.
  intros Hf. apply fuzzySearch_elem in Hf as [Hin Hpos].
  split_and!; [done | done | lia |].
  by apply score_pos_specScore.
Qed.

(** C4: for every score [k], the returned entries of score [k] are, in the
    same order, an initial segment of the candidates of score [k]: entries
    of equal score keep the relative order of the input collection. *)
Theorem fuzzySearch_stable (q : jsstring) (items : list FileItem) (k : Z) :
  List.filter (fun f => score toLowerCase (toLowerCase q) f =? k)%Z
    (fuzzySearch toLowerCase q items)
  `prefix_of`
  List.filter (fun f => score toLowerCase (toLowerCase q) f =? k)%Z items.
Proof.
  unfold fuzzySearch.
  rewrite <- (filter_score_pairs (toLowerCase q) k (ranked toLowerCase q items))
    by (intros p Hp; by apply ranked_elem in Hp as (_ & ? & _)).
  set (L := omap (scored toLowerCase (toLowerCase q)) items).
  assert (List.filter (fun p => snd p =? k)%Z (ranked toLowerCase q items)
          `prefix_of` List.filter (fun p => snd p =? k)%Z L) as [rest Hrest].
  { rewrite <- (sort_stable k L). apply filter_prefix, prefix_take. }
  assert (map fst (List.filter (fun p => snd p =? k)%Z L)
          `prefix_of`
          List.filter (fun f => score toLowerCase (toLowerCase q) f =? k)%Z items)
    as [rest' Hrest'].
  { rewrite (filter_score_pairs (toLowerCase q))
      by (intros p Hp; by apply scored_elem in Hp as (_ & ? & _)).
    subst L. rewrite scored_fst.
    destruct (decide (0 < k)%Z).
    - rewrite filter_filter_keep by (intros; lia). done.
    - rewrite filter_filter_none by (intros; lia). apply prefix_nil. }
  rewrite Hrest' , Hrest, map_app, <- app_assoc. by eexists.
Qed.

(** How far the slip of the walk reaches into the ranking: when the
    lowercased query has no character outside the Basic Multilingual Plane,
    or has at most 51 code units, or no lowercased candidate name holds an
    unpaired high surrogate, the walk of the source cannot lift a candidate
    that is no exact match over one that is: an exact name match is returned
    whenever a candidate that is no exact match is, and no exact match
    stands below a candidate that is not one. *)
Lemma exact_match_ranks_first (q : jsstring) (items : list FileItem) :
  hasSurrogatePair (toLowerCase q) = false
  \/ (length (toLowerCase q) <= 51)%nat
  \/ (forall f, f ∈ items -> hasUnpairedHigh (toLowerCase (name f)) = false) ->
  (forall e n, e ∈ items -> exactMatch toLowerCase q e ->
     n ∈ fuzzySearch toLowerCase q items -> ~ exactMatch toLowerCase q n ->
     e ∈ fuzzySearch toLowerCase q items)
  /\ (forall l1 x l2 y l3,
        fuzzySearch toLowerCase q items = l1 ++ x :: l2 ++ y :: l3 ->
        exactMatch toLowerCase q y -> exactMatch toLowerCase q x).
Proof.
  intros Hq0.
  assert (forall n, n ∈ items ->
            hasSurrogatePair (toLowerCase q) = false
            \/ (length (toLowerCase q) <= 51)%nat
            \/ hasUnpairedHigh (toLowerCase (name n)) = false) as Hq.
  { intros n Hn. destruct Hq0 as [?|[?|Hwf]]; auto. }
  clear Hq0. split.
  - intros e n He Hex Hn Hnex.
    assert (n ∈ items) as Hn' by (by apply fuzzySearch_elem in Hn as [? _]).
    specialize (Hq n Hn').
    pose proof (score_exact_gt q e n Hq Hex Hnex) as Hlt.
    unfold fuzzySearch in *.
    apply list_elem_of_fmap in Hn as (pn & -> & Hpn).
    pose proof (ranked_elem _ _ _ Hpn) as (_ & Hsn & Hpos).
    set (L := omap (scored toLowerCase (toLowerCase q)) items) in *.
    assert ((e, score toLowerCase (toLowerCase q) e) ∈ sort byScoreDesc L) as Hin.
    { rewrite sort_perm. apply scored_elem. simpl. split_and!; [done|done|lia]. }
    pose proof (sort_sorted L) as Hsorted.
    rewrite <- (take_drop 50 (sort byScoreDesc L)) in Hin, Hsorted.
    apply elem_of_app in Hin as [Hin|Hin].
    + apply list_elem_of_fmap. by exists (e, score toLowerCase (toLowerCase q) e).
    + pose proof (StronglySorted_app_1_elem_of _ _ _ _ _ Hsorted Hpn Hin) as Hge.
      unfold scoreGe in Hge. simpl in Hge. lia.
  - intros l1 x l2 y l3 Hout Hy.
    unfold fuzzySearch in Hout.
    apply fmap_app_inv in Hout as (r1 & r2 & -> & Hr2 & HR).
    symmetry in Hr2. apply fmap_cons_inv in Hr2 as (px & r2' & -> & Hr2 & ->).
    symmetry in Hr2. apply fmap_app_inv in Hr2 as (r3 & r4 & -> & Hr4 & ->).
    symmetry in Hr4. apply fmap_cons_inv in Hr4 as (py & r5 & -> & _ & ->).
    pose proof (ranked_sorted q items) as Hsorted.
    assert (px ∈ ranked toLowerCase q items) as Hpx.
    { rewrite HR, elem_of_app, elem_of_cons. auto. }
    assert (py ∈ ranked toLowerCase q items) as Hpy.
    { rewrite HR, elem_of_app, elem_of_cons, elem_of_app, elem_of_cons. auto. }
    apply ranked_elem in Hpx as (Hinx & Hsx & _).
    apply ranked_elem in Hpy as (_ & Hsy & _).
    rewrite HR in Hsorted.
    apply StronglySorted_app_1_r, StronglySorted_cons in Hsorted as [Hall _].
    rewrite Forall_app, Forall_cons in Hall. destruct Hall as (_ & Hge & _).
    unfold scoreGe in Hge.
    destruct (decide (toLowerCase (name (fst px)) = toLowerCase q)) as [|Hnx]; [done|].
    pose proof (score_exact_gt q (fst py) (fst px) (Hq _ Hinx) Hy Hnx). lia.
Qed.

(** With the walk as the specification words it, an exact name match
    outscores every candidate that is not one, for every query and every
    name: 1650 + 15 |Q| at least against 870 + 15 |Q| at most. *)
Lemma specScore_exact_gt (q : jsstring) (e n : FileItem) :
  exactMatch toLowerCase q e -> ~ exactMatch toLowerCase q n ->
  (specScore toLowerCase q n < specScore toLowerCase q e)%Z.
Proof.
  unfold exactMatch, specScore, specBase. intros He Hn. rewrite He.
  rewrite (bool_decide_eq_true_2 _ eq_refl), startsWith_refl, includes_refl, seqBonus_refl.
  rewrite (bool_decide_eq_false_2 _ Hn).
  pose proof (seqBonus_bounds (toLowerCase (name n)) (toLowerCase q)).
  repeat case_match; lia.
Qed.

End RankerFacts.

(** ** The ranker on concrete inputs *)

(** C1: for the file named U+1F600 and the query U+1F600 the source scores
    1650: the iterator delivers the character as one two-unit string, which
    never equals the one-unit [term[i]], so the walk awards nothing.  The
    specified sum is 1680 with characters read as code units and 1665 with
    characters read as code points. *)
Theorem score_astral_name :
  score asciiLower (asciiLower smiley) smileyFile = 1650%Z
  /\ specScore asciiLower smiley smileyFile = 1680%Z
  /\ specScoreCodePoints asciiLower smiley smileyFile = 1665%Z.
Proof. split_and!; vm_compute; reflexivity. Qed.


(** The query [readme] over [readme-old.md] and [README]: the exact match
    [README] is returned. *)
Lemma exact_match_ranks_first_witness :
  (hasSurrogatePair (asciiLower (lit "readme")) = false
   \/ (length (asciiLower (lit "readme")) <= 51)%nat
   \/ (forall f, f ∈ [readmeOld; readmeUpper] ->
         hasUnpairedHigh (asciiLower (name f)) = false))
  /\ readmeUpper ∈ fuzzySearch asciiLower (lit "readme") [readmeOld; readmeUpper].
Proof.
  assert (hasSurrogatePair (asciiLower (lit "readme")) = false
          \/ (length (asciiLower (lit "readme")) <= 51)%nat
          \/ (forall f, f ∈ [readmeOld; readmeUpper] ->
                hasUnpairedHigh (asciiLower (name f)) = false)) as Hq.
  { left. vm_compute. reflexivity. }
  split; [exact Hq|].
  apply (proj1 (exact_match_ranks_first asciiLower (lit "readme")
                  [readmeOld; readmeUpper] Hq) readmeUpper readmeOld).
  - apply list_elem_of_In. right. left. reflexivity.
  - vm_compute. reflexivity.
  - vm_compute. apply list_elem_of_In. right. left. reflexivity.
  - vm_compute. discriminate.
Defined.

(** [readme-old.md] is returned for the query [readme], with a positive score. *)
Lemma fuzzySearch_scores_positive_witness :
  readmeOld ∈ fuzzySearch asciiLower (lit "readme") [mainGo; readmeOld; readmeMd]
  /\ (0 < score asciiLower (asciiLower (lit "readme")) readmeOld)%Z.
Proof.
  assert (readmeOld ∈ fuzzySearch asciiLower (lit "readme") [mainGo; readmeOld; readmeMd])
    as Hin.
  { vm_compute. apply list_elem_of_In. left. reflexivity. }
  split; [exact Hin|].
  exact (proj1 (proj2 (fuzzySearch_scores_positive asciiLower _ _ _ Hin))).
Defined.

(** ** The indexer *)

Lemma descendable_allowed (f : FileItem) :
  type f = folder -> descendable f = true -> allowedFolder f.
Proof.
  unfold descendable, allowedFolder, strEq. intros Ht H.
  rewrite !andb_true_iff, !negb_true_iff, !bool_decide_eq_false in H.
  destruct H as [[[H1 H2] H3] H4]. done.
Qed.

Section IndexerFacts.

Context {World : Type}.
Variable onListFiles : jsstring -> World -> option (list FileItem) * World.

Lemma listing_trace (e : option (list FileItem) -> Event) (path : jsstring) (σ : @Sys World) :
  trace (snd (listing onListFiles e path σ))
  = trace σ ++ [e (fst (listing onListFiles e path σ))].
Proof. unfold listing. by destruct (onListFiles path (world σ)). Qed.

Lemma crawlLoop_withinBounds
    (rec : jsstring -> FileItem -> @Sys World -> list FileItem * @Sys World)
    (path : jsstring) (lst collected : list FileItem) (σ : @Sys World) :
  (forall filePath f s, type f = folder -> descendable f = true ->
     exists new, trace (snd (rec filePath f s)) = trace s ++ new
                 /\ Forall withinBounds new) ->
  exists new, trace (snd (crawlLoop rec path lst collected σ)) = trace σ ++ new
              /\ Forall withinBounds new.
Proof.
  intros Hrec. revert collected σ.
  induction lst as [|f rest IH]; intros collected σ; cbn [crawlLoop].
  - exists []. by rewrite app_nil_r.
  - destruct (type f) eqn:Et; [apply IH|].
    destruct (descendable f) eqn:Ed; [|apply IH].
    destruct (Hrec (filePathOf path f) f σ Et Ed) as (n1 & H1 & F1).
    destruct (rec (filePathOf path f) f σ) as [sub σ1]. cbn [snd] in H1.
    destruct (IH (collected ++ sub) σ1) as (n2 & H2 & F2).
    exists (n1 ++ n2). rewrite H2, H1, app_assoc. split; [done|].
    by apply Forall_app.
Qed.

Lemma crawl_withinBounds (path : jsstring) (depth : Z) (trail : list FileItem) (σ : @Sys World) :
  depth = Z.of_nat (length trail) -> Forall allowedFolder trail ->
  exists new, trace (snd (crawl onListFiles path depth trail σ)) = trace σ ++ new
              /\ Forall withinBounds new.
Proof.
  revert path depth trail σ.
  apply (crawl_elim onListFiles (fun path depth trail σ res =>
    depth = Z.of_nat (length trail) -> Forall allowedFolder trail ->
    exists new, trace (snd res) = trace σ ++ new /\ Forall withinBounds new)).
  - intros path depth Hgt trail σ _ Hd Ht.
    exists [Crawled path depth trail]. split; [done|].
    repeat constructor; done.
  - intros path depth Hle trail σ IH _ Hd Ht.
    pose proof (listing_trace (Listed path depth trail) path
                  (emit (Crawled path depth trail) σ)) as Hl.
    destruct (listing onListFiles (Listed path depth trail) path
                (emit (Crawled path depth trail) σ)) as [r σ1].
    cbn [fst snd] in Hl. cbn [emit trace] in Hl.
    assert (Forall withinBounds [Crawled path depth trail; Listed path depth trail r])
      as Hhere.
    { repeat constructor; first [done | lia]. }
    destruct r as [lst|].
    + destruct (crawlLoop_withinBounds
                  (fun filePath f s => crawl onListFiles filePath (depth + 1) (trail ++ [f]) s)
                  path lst [] σ1) as (n & Hn & Fn).
      { intros filePath f s Et Ed. apply (IH (Some lst) σ1 lst).
        - rewrite length_app. simpl. lia.
        - apply Forall_app. split; [done|].
          constructor; [by apply descendable_allowed|constructor]. }
      exists ([Crawled path depth trail; Listed path depth trail (Some lst)] ++ n).
      rewrite Hn, Hl, <- !app_assoc. split; [done|]. by apply Forall_app.
    + exists [Crawled path depth trail; Listed path depth trail None].
      cbn [snd]. rewrite Hl, <- app_assoc. done.
Qed.

(** C6: in an indexing pass from any root, every listing call is issued at
    most 6 levels below the root, and every invocation of [crawl] and every
    listing call is reached through folder entries only, none of which has
    a name that starts with [.] or is [node_modules], [build] or [dist]. *)
Theorem indexing_within_bounds (root : jsstring) (st : State) (σ : @Sys World) :
  exists new,
    trace (snd (indexAllFiles onListFiles root st σ)) = trace σ ++ new
    /\ Forall withinBounds new.
Proof.
  unfold indexAllFiles. destruct (strEq (indexedRef st) root).
  - exists []. by rewrite app_nil_r.
  - destruct (crawl_withinBounds root 0 [] σ) as (new & Hn & Fn); [done|constructor|].
    destruct (crawl onListFiles root 0 [] σ) as [result σ']. by exists new.
Qed.

Lemma followsUp_app (a b : list Event) : followsUp a -> followsUp b -> followsUp (a ++ b).
Proof.
  intros [Ha1 Ha2] [Hb1 Hb2]. split.
  - intros p d t lst f Hin Hf Ht Hd. rewrite elem_of_app in *.
    destruct Hin as [Hin|Hin]; [left; eapply Ha1|right; eapply Hb1]; eauto.
  - intros p d t Hin Hd. rewrite elem_of_app in Hin.
    destruct Hin as [Hin|Hin];
      [destruct (Ha2 _ _ _ Hin Hd) as [r Hr]|destruct (Hb2 _ _ _ Hin Hd) as [r Hr]];
      exists r; rewrite elem_of_app; auto.
Qed.

Lemma crawlLoop_accounted (path : jsstring) (depth : Z) (trail : list FileItem)
    (lst collected : list FileItem) (σ : @Sys World) :
  let rec := fun filePath f s => crawl onListFiles filePath (depth + 1) (trail ++ [f]) s in
  (forall filePath f s, accounted filePath (depth + 1) (trail ++ [f]) s (rec filePath f s)) ->
  exists new,
    trace (snd (crawlLoop rec path lst collected σ)) = trace σ ++ new
    /\ fst (crawlLoop rec path lst collected σ)
       ≡ₚ collected ++ filesOf path lst ++ flat_map reported new
    /\ followsUp new
    /\ (forall f, f ∈ lst -> type f = folder -> descendable f = true ->
          Crawled (filePathOf path f) (depth + 1) (trail ++ [f]) ∈ new).
Proof.
  intros rec Hrec. revert collected σ.
  induction lst as [|f rest IH]; intros collected σ; cbn [crawlLoop].
  - exists []. rewrite !app_nil_r. split_and!; [done|done| |].
    + split; intros *; by rewrite elem_of_nil.
    + intros f; by rewrite elem_of_nil.
  - unfold filesOf. cbn [List.filter]. unfold isFile at 1.
    destruct (type f) eqn:Et.
    + destruct (IH (collected ++ [withPath f (filePathOf path f)]) σ)
        as (new & Htr & Hres & Hfu & Hch).
      exists new. split_and!; [done| |done|].
      * rewrite Hres. unfold filesOf. cbn [map]. by rewrite <- app_assoc.
      * intros f' Hf' Ht' Hd'. apply elem_of_cons in Hf' as [->|Hf']; [congruence|eauto].
    + destruct (descendable f) eqn:Ed.
      * destruct (Hrec (filePathOf path f) f σ) as (n1 & Htr1 & Hres1 & Hfu1 & Hc1).
        destruct (rec (filePathOf path f) f σ) as [sub σ1]. cbn [fst snd] in *.
        destruct (IH (collected ++ sub) σ1) as (n2 & Htr2 & Hres2 & Hfu2 & Hch2).
        exists (n1 ++ n2). split_and!.
        -- by rewrite Htr2, Htr1, app_assoc.
        -- rewrite Hres2, Hres1, flat_map_app. unfold filesOf.
           rewrite <- !app_assoc. f_equiv. rewrite !app_assoc. f_equiv.
           apply Permutation_app_comm.
        -- by apply followsUp_app.
        -- intros f' Hf' Ht' Hd'. rewrite elem_of_app.
           apply elem_of_cons in Hf' as [->|Hf']; [by left|right; eauto].
      * destruct (IH collected σ) as (new & Htr & Hres & Hfu & Hch).
        exists new. split_and!; [done|done|done|].
        intros f' Hf' Ht' Hd'. apply elem_of_cons in Hf' as [->|Hf']; [congruence|eauto].
Qed.

Lemma crawl_accounted (path : jsstring) (depth : Z) (trail : list FileItem) (σ : @Sys World) :
  accounted path depth trail σ (crawl onListFiles path depth trail σ).
Proof.
  revert path depth trail σ. apply (crawl_elim onListFiles accounted).
  - intros path depth Hgt trail σ _.
    exists [Crawled path depth trail]. split_and!; [done|done| |apply list_elem_of_here].
    split.
    + intros p d t lst f Hin. apply elem_of_cons in Hin as [Hin|Hin]; [discriminate|].
      by apply elem_of_nil in Hin.
    + intros p d t Hin Hd. apply elem_of_cons in Hin as [Hin|Hin];
        [injection Hin as -> -> ->; lia|by apply elem_of_nil in Hin].
  - intros path depth Hle trail σ IH _.
    pose proof (listing_trace (Listed path depth trail) path
                  (emit (Crawled path depth trail) σ)) as Hl.
    destruct (listing onListFiles (Listed path depth trail) path
                (emit (Crawled path depth trail) σ)) as [r σ1].
    cbn [fst snd emit trace] in Hl.
    destruct r as [lst|].
    + destruct (crawlLoop_accounted path depth trail lst [] σ1)
        as (n & Htr & Hres & [Hfu1 Hfu2] & Hch).
      { intros filePath f s. apply (IH (Some lst) σ1 lst). }
      exists ([Crawled path depth trail; Listed path depth trail (Some lst)] ++ n).
      split_and!.
      * by rewrite Htr, Hl, <- !app_assoc.
      * rewrite Hres. reflexivity.
      * split.
        -- intros p d t lst' f Hin Hf Ht Hd.
           rewrite elem_of_app, !elem_of_cons, elem_of_nil in Hin.
           rewrite elem_of_app. right.
           destruct Hin as [[Hin|[Hin|[]]]|Hin]; [discriminate| |by eapply Hfu1].
           injection Hin as -> -> -> ->. by apply Hch.
        -- intros p d t Hin Hd.
           rewrite elem_of_app, !elem_of_cons, elem_of_nil in Hin.
           destruct Hin as [[Hin|[Hin|[]]]|Hin]; [|discriminate|].
           ++ injection Hin as -> -> ->. exists (Some lst).
              rewrite elem_of_app, !elem_of_cons. auto.
           ++ destruct (Hfu2 _ _ _ Hin Hd) as [r Hr]. exists r.
              rewrite elem_of_app. auto.
      * rewrite elem_of_app, elem_of_cons. auto.
    + exists [Crawled path depth trail; Listed path depth trail None].
      cbn [fst snd]. split_and!.
      * by rewrite Hl, <- app_assoc.
      * done.
      * split.
        -- intros p d t lst f Hin.
           rewrite !elem_of_cons, elem_of_nil in Hin.
           destruct Hin as [Hin|[Hin|[]]]; discriminate.
        -- intros p d t Hin Hd. rewrite !elem_of_cons, elem_of_nil in Hin.
           destruct Hin as [Hin|[Hin|[]]]; [|discriminate].
           injection Hin as -> -> ->. exists None. rewrite !elem_of_cons. auto.
      * apply list_elem_of_here.
Qed.

(** A directory whose listing call fails yields no entry. *)
Lemma crawl_listing_failed (path : jsstring) (depth : Z) (trail : list FileItem)
    (σ : @Sys World) :
  fst (onListFiles path (world σ)) = None ->
  fst (crawl onListFiles path depth trail σ) = [].
Proof.
  intros Hfail. rewrite crawl_equation_1. unfold crawl_unfold_clause_1.
  destruct (Z_gt_dec depth 6); [reflexivity|].
  unfold listing. cbn [emit world].
  destruct (onListFiles path (world σ)) as [r w]. cbn [fst] in Hfail. by subst r.
Qed.

(** The listing call of an invocation within the depth limit comes right
    after the invocation and carries what the capability returned. *)
Lemma crawl_first_events (path : jsstring) (depth : Z) (trail : list FileItem)
    (σ : @Sys World) :
  (depth <= 6)%Z ->
  exists rest,
    trace (snd (crawl onListFiles path depth trail σ))
    = trace σ ++ Crawled path depth trail
              :: Listed path depth trail (fst (onListFiles path (world σ))) :: rest.
Proof.
  intros Hd. destruct (crawl_accounted path depth trail σ) as (new & Htr & _).
  revert Htr. rewrite crawl_equation_1. unfold crawl_unfold_clause_1.
  destruct (Z_gt_dec depth 6); [lia|].
  unfold listing. cbn [emit world trace].
  destruct (onListFiles path (world σ)) as [[lst|] w]; cbn [fst].
  - destruct (crawlLoop_accounted path depth trail lst []
                {| world := w;
                   trace := (trace σ ++ [Crawled path depth trail])
                            ++ [Listed path depth trail (Some lst)] |})
      as (more & Hmore & _).
    { intros filePath f s. apply crawl_accounted. }
    cbn zeta in Hmore. cbn [trace] in Hmore. intros _. exists more.
    rewrite Hmore, <- !app_assoc. reflexivity.
  - intros _. exists []. cbn [snd trace]. by rewrite <- !app_assoc.
Qed.

Lemma crawlLoop_truthful (ls : jsstring -> option (list FileItem))
    (rec : jsstring -> FileItem -> @Sys World -> list FileItem * @Sys World)
    (path : jsstring) (lst collected : list FileItem) (σ : @Sys World) :
  (forall filePath f s,
     exists new, trace (snd (rec filePath f s)) = trace s ++ new
                 /\ Forall (truthful ls) new) ->
  exists new, trace (snd (crawlLoop rec path lst collected σ)) = trace σ ++ new
              /\ Forall (truthful ls) new.
Proof.
  intros Hrec. revert collected σ.
  induction lst as [|f rest IH]; intros collected σ; cbn [crawlLoop].
  - exists []. by rewrite app_nil_r.
  - destruct (type f); [apply IH|].
    destruct (descendable f); [|apply IH].
    destruct (Hrec (filePathOf path f) f σ) as (n1 & H1 & F1).
    destruct (rec (filePathOf path f) f σ) as [sub σ1]. cbn [snd] in H1.
    destruct (IH (collected ++ sub) σ1) as (n2 & H2 & F2).
    exists (n1 ++ n2). rewrite H2, H1, app_assoc. split; [done|].
    by apply Forall_app.
Qed.

Lemma crawl_truthful (ls : jsstring -> option (list FileItem))
    (path : jsstring) (depth : Z) (trail : list FileItem) (σ : @Sys World) :
  (forall p w, onListFiles p w = (ls p, w)) ->
  exists new, trace (snd (crawl onListFiles path depth trail σ)) = trace σ ++ new
              /\ Forall (truthful ls) new.
Proof.
  intros Hpure. revert path depth trail σ.
  apply (crawl_elim onListFiles (fun path depth trail σ res =>
    exists new, trace (snd res) = trace σ ++ new /\ Forall (truthful ls) new)).
  - intros path depth Hgt trail σ _.
    exists [Crawled path depth trail]. split; [done|]. by repeat constructor.
  - intros path depth Hle trail σ IH _.
    unfold listing in *. cbn [emit world trace] in *.
    rewrite Hpure in *.
    destruct (ls path) as [lst|] eqn:El.
    + destruct (crawlLoop_truthful ls
                  (fun filePath f s => crawl onListFiles filePath (depth + 1) (trail ++ [f]) s)
                  path lst []
                  {| world := world σ;
                     trace := (trace σ ++ [Crawled path depth trail])
                              ++ [Listed path depth trail (Some lst)] |})
        as (n & Hn & Fn).
      { intros filePath f s. apply (IH (Some lst) σ lst). }
      exists ([Crawled path depth trail; Listed path depth trail (Some lst)] ++ n).
      split; [rewrite Hn; cbn [trace]; by rewrite <- !app_assoc|].
      apply Forall_app. split; [|done].
      constructor; [done|]. constructor; [|constructor]. cbn. by rewrite El.
    + exists [Crawled path depth trail; Listed path depth trail None].
      split; [cbn [snd trace]; by rewrite <- !app_assoc|].
      constructor; [done|]. constructor; [|constructor]. cbn. by rewrite El.
Qed.

(** C7: an indexing pass returns, up to order, exactly the file entries of
    the listing calls that succeeded: a failed listing call contributes no
    entry and removes none.  The pass is not cut short either: the root is
    crawled and its listing call issued, every folder entry a successful
    listing reports (and [crawl] is willing to descend into) is crawled, and
    every invocation of [crawl] within the depth limit issues its listing
    call, whatever happened to the listings before it.  What the events say
    the calls returned is what the capability returned: at the root for
    every capability, everywhere for a capability that answers by the path
    alone.  A directory whose own listing call fails yields no entry. *)
Theorem listing_failure_is_local (root : jsstring) (σ : @Sys World) :
  (exists new,
     trace (snd (crawl onListFiles root 0 [] σ)) = trace σ ++ new
     /\ fst (crawl onListFiles root 0 [] σ) ≡ₚ flat_map reported new
     /\ followsUp new
     /\ Crawled root 0 [] ∈ new
     /\ Listed root 0 [] (fst (onListFiles root (world σ))) ∈ new
     /\ (forall ls, (forall p w, onListFiles p w = (ls p, w)) ->
           forall p d t r, Listed p d t r ∈ new -> r = ls p))
  /\ (forall path depth trail (s : @Sys World),
        fst (onListFiles path (world s)) = None ->
        fst (crawl onListFiles path depth trail s) = []).
Proof.
  split.
  - destruct (crawl_accounted root 0 [] σ) as (new & Htr & Hres & Hfu & Hroot).
    exists new. split_and!; try done.
    + destruct (crawl_first_events root 0 [] σ) as (rest & Hrest); [lia|].
      rewrite Htr in Hrest. apply app_inv_head in Hrest. rewrite Hrest.
      apply elem_of_cons. right. apply elem_of_cons. by left.
    + intros ls Hpure p d t r Hin.
      destruct (crawl_truthful ls root 0 [] σ Hpure) as (new' & Htr' & Hall).
      rewrite Htr in Htr'. apply app_inv_head in Htr'. subst new'.
      rewrite Forall_forall in Hall. exact (Hall _ Hin).
  - intros path depth trail s Hfail. by apply crawl_listing_failed.
Qed.

End IndexerFacts.

Example locked_scenario :
  fst (crawl lockedListing (lit "/proj") 0 [] (mkSys tt [])) = [mainGo; guideMd].
Proof. vm_compute. reflexivity. Qed.

(** ** The listing cache *)

Section CacheFacts.

Context {World : Type}.
Variable onListFiles : jsstring -> World -> option (list FileItem) * World.

(** C9 (amended): two requests for the same path, the first on a cache that
    does not hold the path and with a listing call that succeeds, the second
    after anything that leaves the cache entry in place (the world may have
    changed): the first request issues exactly one listing call, the second
    issues none and shows the sequence the first one stored. *)
Theorem loadFiles_twice (path : jsstring) (st st' : State) (σ σ' : @Sys World)
    (lst : list FileItem) :
  cache st !! path = None ->
  fst (onListFiles path (world σ)) = Some lst ->
  cache st' !! path = cache (fst (loadFiles onListFiles path st σ)) !! path ->
  trace (snd (loadFiles onListFiles path st σ)) = trace σ ++ [Loaded path (Some lst)]
  /\ files (fst (loadFiles onListFiles path st σ)) = lst
  /\ snd (loadFiles onListFiles path st' σ') = σ'
  /\ files (fst (loadFiles onListFiles path st' σ')) = lst.
Proof.
  intros Hfresh Hok Hkept.
  unfold loadFiles in *. rewrite Hfresh in *. unfold listing in *.
  destruct (onListFiles path (world σ)) as [r w]. cbn [fst] in Hok. subst r.
  cbn [fst snd cache files trace] in *.
  rewrite lookup_insert_eq in Hkept. rewrite Hkept. done.
Qed.

End CacheFacts.

(** The directory [/a] holds [Readme.md] at the first request and two other
    files at the second: one listing call in all, and the second request
    still shows [Readme.md]. *)
Lemma loadFiles_twice_witness :
  let r1 := loadFiles liveListing (lit "/a") initialState (mkSys [readmeMd] []) in
  let r2 := loadFiles liveListing (lit "/a") (fst r1) (mkSys [mainGo; readmeOld] (trace (snd r1))) in
  listingCalls (lit "/a") (trace (snd r2)) = 1%nat /\ files (fst r2) = [readmeMd].
Proof.
  intros r1 r2.
  destruct (loadFiles_twice liveListing (lit "/a") initialState (fst r1)
              (mkSys [readmeMd] []) (mkSys [mainGo; readmeOld] (trace (snd r1)))
              [readmeMd]) as (Htr & _ & Hsnd & Hfiles).
  - apply lookup_empty.
  - reflexivity.
  - reflexivity.
  - fold r1 in Htr. fold r2 in Hsnd, Hfiles. split; [|exact Hfiles].
    rewrite Hsnd. cbn [trace]. rewrite Htr. vm_compute. reflexivity.
Defined.

(** C9 as stated fails: when the listing call of the first request fails,
    the [catch] stores nothing, and the second request for the same path
    issues a listing call of its own, two in all. *)
Lemma loadFiles_twice_counterexample :
  ~ (forall (World : Type)
            (onListFiles : jsstring -> World -> option (list FileItem) * World)
            (path : jsstring) (w : World),
       let r1 := loadFiles onListFiles path initialState (mkSys w []) in
       let r2 := loadFiles onListFiles path (fst r1) (snd r1) in
       listingCalls path (trace (snd r2)) = 1%nat).
Proof.
  intros H. specialize (H unit failingListing (lit "/a") tt).
  vm_compute in H. discriminate H.
Qed.

(** A failed listing is not cached: the second request calls again. *)
Example loadFiles_failure_not_cached :
  let r1 := loadFiles failingListing (lit "/a") initialState (mkSys tt []) in
  let r2 := loadFiles failingListing (lit "/a") (fst r1) (snd r1) in
  listingCalls (lit "/a") (trace (snd r2)) = 2%nat.
Proof. vm_compute. reflexivity. Qed.

(** ** The selection cursor *)

(** C8 as stated fails: on an empty collection Arrow-down leaves the cursor
    at -1, and Arrow-up from a cursor beyond the collection stays beyond it. *)
Lemma arrow_keys_counterexample :
  ~ (forall (key : Key) (sel : Z) (shown : list FileItem),
       key = ArrowDown \/ key = ArrowUp ->
       (0 <= handleKey key sel shown <= Z.of_nat (length shown) - 1)%Z).
Proof.
  intros H. specialize (H ArrowDown 0%Z [] (or_introl eq_refl)).
  vm_compute in H. destruct H as [H _]. by apply H.
Qed.

Example arrow_up_stale_cursor :
  handleKey ArrowUp 10 [readmeMd; readmeOld; mainGo] = 9%Z.
Proof. reflexivity. Qed.

(** C8 (amended): on a non-empty displayed collection and from a cursor
    between -1 and the length of the collection, Arrow-down and Arrow-up
    leave the cursor within [0, length-1]. *)
Theorem arrow_keys_in_range (key : Key) (sel : Z) (shown : list FileItem) :
  key = ArrowDown \/ key = ArrowUp ->
  shown <> [] ->
  (-1 <= sel <= Z.of_nat (length shown))%Z ->
  (0 <= handleKey key sel shown <= Z.of_nat (length shown) - 1)%Z.
Proof.
  intros Hkey Hne Hsel.
  assert (0 < length shown)%nat by (destruct shown; [done|simpl; lia]).
  destruct Hkey as [-> | ->]; cbn [handleKey]; lia.
Qed.

(** Arrow-down on the last of three entries stays on it. *)
Lemma arrow_keys_in_range_witness :
  (0 <= handleKey ArrowDown 2 [readmeMd; readmeOld; mainGo] <= 2)%Z.
Proof.
  apply (arrow_keys_in_range ArrowDown 2 [readmeMd; readmeOld; mainGo]).
  - left. reflexivity.
  - discriminate.
  - simpl. lia.
Defined.

(** ** The displayed collection without an index *)

(** C10: with a query that is not blank and an empty index, the displayed
    collection is the listing [files] filtered by case-insensitive substring
    match on the name, with no truncation and whatever the kind of the
    entries: every matching entry of [files] is displayed. *)
Theorem filteredFiles_without_index (toLowerCase : jsstring -> jsstring)
    (query : jsstring) (files : list FileItem) :
  trim query <> [] ->
  filteredFiles toLowerCase query files []
  = List.filter (fun f => includes (toLowerCase (name f)) (toLowerCase query)) files
  /\ (forall f, f ∈ files ->
        includes (toLowerCase (name f)) (toLowerCase query) = true ->
        f ∈ filteredFiles toLowerCase query files []).
Proof.
  intros Hq. unfold filteredFiles.
  destruct (trim query) as [|u t] eqn:E; [done|]. cbn [truthy negb length Nat.ltb Nat.leb].
  split; [reflexivity|].
  intros f Hf Hinc. apply list_elem_of_In, filter_In. split; [|exact Hinc].
  by apply list_elem_of_In.
Qed.

(** 60 folder entries named [src] and the query [s]: all 60 are displayed. *)
Lemma filteredFiles_without_index_witness :
  trim (lit "s") <> []
  /\ filteredFiles asciiLower (lit "s") (replicate 60 srcDir) [] = replicate 60 srcDir.
Proof.
  assert (trim (lit "s") <> []) as Hq by (vm_compute; discriminate).
  split; [exact Hq|].
  rewrite (proj1 (filteredFiles_without_index asciiLower (lit "s") (replicate 60 srcDir) Hq)).
  vm_compute. reflexivity.
Defined.

(** ** The scenario of the three entries *)

(** C5 as stated fails: when the listing of [/proj] reports [readme-old.md]
    before [Readme.md], the ranker returns them in that order. *)
Lemma readme_order_counterexample :
  ~ (forall rootEntries,
       rootEntries ≡ₚ [readmeMd; readmeOld; srcDir] ->
       ranksAbove (lit "Readme.md") (lit "readme-old.md")
         (fuzzySearch asciiLower (lit "readme")
            (indexOf (projListing rootEntries) (lit "/proj") tt)) = true).
Proof.
  intros H. specialize (H [readmeOld; readmeMd; srcDir] (Permutation_swap _ _ _)).
  vm_compute in H. discriminate H.
Qed.

(** C5 (amended): whatever the order in which the listing of [/proj] reports
    the three entries, [Readme.md] and [readme-old.md] both score 960 for the
    query [readme] and [main.go] scores 0; the ranker returns the two readme
    files in the order of the listing and leaves [main.go], which is in the
    index, out.  [Readme.md] stands above [readme-old.md] exactly when the
    listing reports it first. *)
Theorem readme_scenario (rootEntries : list FileItem) :
  rootEntries ≡ₚ [readmeMd; readmeOld; srcDir] ->
  let corpus := indexOf (projListing rootEntries) (lit "/proj") tt in
  let out := fuzzySearch asciiLower (lit "readme") corpus in
  score asciiLower (asciiLower (lit "readme")) readmeMd = 960%Z
  /\ score asciiLower (asciiLower (lit "readme")) readmeOld = 960%Z
  /\ score asciiLower (asciiLower (lit "readme")) mainGo = 0%Z
  /\ out = List.filter isFile rootEntries
  /\ hasName (lit "main.go") corpus = true
  /\ hasName (lit "main.go") out = false
  /\ ranksAbove (lit "Readme.md") (lit "readme-old.md") out
     = ranksAbove (lit "Readme.md") (lit "readme-old.md") rootEntries.
Proof.
  intros H. symmetry in H. apply permutations_Permutation in H.
  unfold readmeMd, readmeOld, srcDir in H. vm_compute in H.
  repeat (apply elem_of_cons in H as [-> | H]);
    [..|by apply elem_of_nil in H];
    split_and!; vm_compute; reflexivity.
Qed.

(** The listing in the order of the backend, which sorts by file name. *)
Lemma readme_scenario_witness :
  [readmeMd; readmeOld; srcDir] ≡ₚ [readmeMd; readmeOld; srcDir]
  /\ fuzzySearch asciiLower (lit "readme")
       (indexOf (projListing [readmeMd; readmeOld; srcDir]) (lit "/proj") tt)
     = [readmeMd; readmeOld].
Proof.
  assert ([readmeMd; readmeOld; srcDir] ≡ₚ [readmeMd; readmeOld; srcDir]) as Hp
    by reflexivity.
  split; [exact Hp|].
  exact (proj1 (proj2 (proj2 (proj2 (readme_scenario _ Hp))))).
Defined.

(** ** More on the ranker *)

Lemma filter_sublist {A} (P : A -> bool) (l : list A) : List.filter P l `sublist_of` l.
Proof.
  induction l as [|x l IH]; [constructor|].
  cbn [List.filter]. destruct (P x); by constructor.
Qed.

Lemma trimStart_blank (s : jsstring) : forallb isWhiteSpace s = true -> trimStart s = [].
Proof.
  induction s as [|u s IH]; [done|].
  cbn [forallb trimStart]. intros [-> H]%andb_true_iff. by apply IH.
Qed.

Lemma trimStart_nonblank (s : jsstring) :
  forallb isWhiteSpace s = false ->
  exists u t, trimStart s = u :: t /\ isWhiteSpace u = false.
Proof.
  induction s as [|u s IH]; [done|].
  cbn [forallb trimStart]. destruct (isWhiteSpace u) eqn:E; [exact IH|].
  intros _. by exists u, s.
Qed.

(** [trim] leaves nothing exactly of the strings made of white space. *)
Lemma trim_blank (s : jsstring) : trim s = [] <-> forallb isWhiteSpace s = true.
Proof.
  unfold trim. split.
  - intros H. destruct (forallb isWhiteSpace s) eqn:E; [done|].
    destruct (trimStart_nonblank s E) as (u & t & Hs & Hu). rewrite Hs in H.
    assert (forallb isWhiteSpace (rev (u :: t)) = false) as Hr.
    { destruct (forallb isWhiteSpace (rev (u :: t))) eqn:Er; [|done].
      rewrite forallb_forall in Er. specialize (Er u).
      rewrite Er in Hu; [done|]. apply in_rev. rewrite rev_involutive. by left. }
    destruct (trimStart_nonblank _ Hr) as (v & t' & Hs' & _).
    rewrite Hs' in H. apply (f_equal (@length N)) in H.
    rewrite length_rev in H. done.
  - intros H. by rewrite (trimStart_blank s H).
Qed.

Section RankerMore.

Variable toLowerCase : jsstring -> jsstring.

Lemma ranked_fst_sorted (q : jsstring) (items : list FileItem) :
  StronglySorted
    (fun a b => (score toLowerCase (toLowerCase q) b
                 <= score toLowerCase (toLowerCase q) a)%Z)
    (map fst (ranked toLowerCase q items)).
Proof.
  pose proof (ranked_sorted toLowerCase q items) as Hs.
  pose proof (ranked_elem toLowerCase q items) as He.
  induction Hs as [|p l Hl IH Hp]; [constructor|].
  cbn [map]. constructor.
  - apply IH. intros p' Hp'. apply He. by right.
  - apply Forall_fmap, Forall_forall. intros p' Hp'. cbn.
    rewrite Forall_forall in Hp. specialize (Hp p' Hp'). unfold scoreGe in Hp.
    destruct (He p ltac:(by left)) as (_ & <- & _).
    destruct (He p' ltac:(by right)) as (_ & <- & _). done.
Qed.

(** X1: [fuzzySearch] returns at most 50 entries, each of them a candidate
    and none more often than it occurs among the candidates. *)
Theorem fuzzySearch_bounded (q : jsstring) (items : list FileItem) :
  (length (fuzzySearch toLowerCase q items) <= 50)%nat
  /\ fuzzySearch toLowerCase q items ⊆+ items.
Proof.
  unfold fuzzySearch, ranked. split.
  - rewrite length_map, length_take. lia.
  - set (L := omap (scored toLowerCase (toLowerCase q)) items).
    transitivity (map fst (sort byScoreDesc L)).
    { apply (fmap_submseteq fst), submseteq_take. }
    transitivity (map fst L).
    { apply Permutation_submseteq. apply (fmap_Permutation fst), sort_perm. }
    subst L. rewrite scored_fst. apply sublist_submseteq, filter_sublist.
Qed.

(** X2: the entries [fuzzySearch] returns stand in non-increasing order of
    score. *)
Theorem fuzzySearch_descending (q : jsstring) (items : list FileItem) :
  StronglySorted
    (fun a b => (score toLowerCase (toLowerCase q) b
                 <= score toLowerCase (toLowerCase q) a)%Z)
    (fuzzySearch toLowerCase q items).
Proof. apply ranked_fst_sorted. Qed.

(** X3: with at most 50 candidates of positive score, [fuzzySearch] returns
    all of them, each as often as it occurs. *)
Theorem fuzzySearch_all_when_few (q : jsstring) (items : list FileItem) :
  (length (List.filter (fun f => 0 <? score toLowerCase (toLowerCase q) f)%Z items)
   <= 50)%nat ->
  fuzzySearch toLowerCase q items
  ≡ₚ List.filter (fun f => 0 <? score toLowerCase (toLowerCase q) f)%Z items.
Proof.
  intros Hfew. unfold fuzzySearch, ranked.
  set (L := omap (scored toLowerCase (toLowerCase q)) items).
  rewrite <- scored_fst. fold L.
  rewrite take_ge.
  - apply (fmap_Permutation fst), sort_perm.
  - rewrite (Permutation_length (sort_perm byScoreDesc L)).
    rewrite <- (length_map fst). subst L. by rewrite scored_fst.
Qed.

(** X4: what the truncation drops is never better than what it keeps: a
    candidate of positive score that is not returned scores no more than
    any entry that is. *)
Theorem fuzzySearch_keeps_best (q : jsstring) (items : list FileItem) (f g : FileItem) :
  f ∈ items ->
  (0 < score toLowerCase (toLowerCase q) f)%Z ->
  f ∉ fuzzySearch toLowerCase q items ->
  g ∈ fuzzySearch toLowerCase q items ->
  (score toLowerCase (toLowerCase q) f <= score toLowerCase (toLowerCase q) g)%Z.
Proof.
  intros Hf Hpos Hout Hg. unfold fuzzySearch in *.
  apply list_elem_of_fmap in Hg as (pg & -> & Hpg).
  pose proof (ranked_elem _ _ _ _ Hpg) as (_ & Hsg & _).
  unfold ranked in *.
  set (L := omap (scored toLowerCase (toLowerCase q)) items) in *.
  assert ((f, score toLowerCase (toLowerCase q) f) ∈ sort byScoreDesc L) as Hin.
  { rewrite sort_perm. apply scored_elem. simpl. split_and!; [done|done|lia]. }
  pose proof (sort_sorted L) as Hsorted.
  rewrite <- (take_drop 50 (sort byScoreDesc L)) in Hin, Hsorted.
  apply elem_of_app in Hin as [Hin|Hin].
  - exfalso. apply Hout. apply list_elem_of_fmap.
    by exists (f, score toLowerCase (toLowerCase q) f).
  - pose proof (StronglySorted_app_1_elem_of _ _ _ _ _ Hsorted Hpg Hin) as Hge.
    unfold scoreGe in Hge. simpl in Hge. lia.
Qed.

(** X5: a query made of white space only does not search: the displayed
    collection is the first 200 entries of the listing, index or not. *)
Theorem filteredFiles_blank_query (query : jsstring) (files allFiles : list FileItem) :
  forallb isWhiteSpace query = true ->
  filteredFiles toLowerCase query files allFiles = take 200 files.
Proof.
  intros Hblank. unfold filteredFiles.
  apply trim_blank in Hblank. by rewrite Hblank.
Qed.

End RankerMore.

Lemma fuzzySearch_all_when_few_witness :
  (length (List.filter (fun f => 0 <? score asciiLower (asciiLower (lit "readme")) f)%Z
             [mainGo; readmeOld; readmeMd]) <= 50)%nat
  /\ fuzzySearch asciiLower (lit "readme") [mainGo; readmeOld; readmeMd]
     ≡ₚ [readmeOld; readmeMd].
Proof.
  assert (length (List.filter
                    (fun f => 0 <? score asciiLower (asciiLower (lit "readme")) f)%Z
                    [mainGo; readmeOld; readmeMd]) <= 50)%nat as Hfew.
  { vm_compute. lia. }
  split; [exact Hfew|].
  rewrite (fuzzySearch_all_when_few asciiLower _ _ Hfew). vm_compute. reflexivity.
Defined.

(** 50 files named [README] and one [readme-old.md]: the latter is dropped,
    and scores less than a [README]. *)
Lemma fuzzySearch_keeps_best_witness :
  (score asciiLower (asciiLower (lit "readme")) readmeOld
   <= score asciiLower (asciiLower (lit "readme")) readmeUpper)%Z.
Proof.
  apply (fuzzySearch_keeps_best asciiLower (lit "readme")
           (replicate 50 readmeUpper ++ [readmeOld])).
  - apply elem_of_app. right. apply list_elem_of_here.
  - vm_compute. reflexivity.
  - intros H. apply list_elem_of_In in H. vm_compute in H.
    repeat (destruct H as [H|H]; [discriminate H|]). exact H.
  - vm_compute. apply list_elem_of_here.
Defined.

Lemma filteredFiles_blank_query_witness :
  forallb isWhiteSpace (lit "  ") = true
  /\ filteredFiles asciiLower (lit "  ") [readmeMd; srcDir] [mainGo] = [readmeMd; srcDir].
Proof.
  assert (forallb isWhiteSpace (lit "  ") = true) as Hb by (vm_compute; reflexivity).
  split; [exact Hb|].
  rewrite (filteredFiles_blank_query asciiLower _ _ _ Hb). reflexivity.
Defined.

(** ** More on the indexer and the overlay *)

Lemma endsWith_slash_app (path : jsstring) : endsWith (path ++ lit "/") (lit "/") = true.
Proof. unfold endsWith. rewrite rev_app_distr. reflexivity. Qed.

Lemma filePathOf_nonempty (dir : jsstring) (f : FileItem) : filePathOf dir f <> [].
Proof.
  assert ((if endsWith dir (lit "/") then dir ++ name f
           else dir ++ lit "/" ++ name f) <> []) as Hd.
  { destruct (endsWith dir (lit "/")) eqn:E.
    - destruct dir; done.
    - intros H. apply app_eq_nil in H as [_ H]. done. }
  unfold filePathOf, pathOr.
  destruct (path f) as [p|]; [|done]. destruct p; done.
Qed.

(** X6: for an entry that carries no path of its own, the path [crawl]
    makes up is the same whether the parent path ends in a separator or
    not: no double separator arises. *)
Theorem filePathOf_trailing_slash (path : jsstring) (f : FileItem) :
  endsWith path (lit "/") = false ->
  filePathOf (path ++ lit "/") f = filePathOf path f.
Proof.
  intros Hno. unfold filePathOf. rewrite endsWith_slash_app, Hno.
  by rewrite <- app_assoc.
Qed.

Lemma filePathOf_trailing_slash_witness :
  endsWith (lit "/proj") (lit "/") = false
  /\ filePathOf (lit "/proj/") (mkFileItem (lit "a.go") file None None None)
     = lit "/proj/a.go".
Proof.
  assert (endsWith (lit "/proj") (lit "/") = false) as Hno by reflexivity.
  split; [exact Hno|].
  change (lit "/proj/") with (lit "/proj" ++ lit "/").
  rewrite (filePathOf_trailing_slash _ _ Hno). reflexivity.
Defined.

Section IndexerMore.

Context {World : Type}.
Variable onListFiles : jsstring -> World -> option (list FileItem) * World.

(** X7: a second [indexAllFiles] for the same root changes nothing and
    issues no listing call. *)
Theorem indexAllFiles_again (root : jsstring) (st : State) (σ : @Sys World) :
  let r := indexAllFiles onListFiles root st σ in
  indexAllFiles onListFiles root (fst r) (snd r) = r.
Proof.
  cbn zeta. unfold indexAllFiles at 2 3 4.
  destruct (strEq (indexedRef st) root) eqn:E.
  - cbn [fst snd]. unfold indexAllFiles. by rewrite E.
  - destruct (crawl onListFiles root 0 [] σ) as [result σ'].
    cbn [fst snd]. unfold indexAllFiles. cbn [indexedRef].
    unfold strEq. by rewrite bool_decide_eq_true_2.
Qed.

Lemma crawl_entry_file (root : jsstring) (depth : Z)
    (trail : list FileItem) (σ : @Sys World) (f : FileItem) :
  f ∈ fst (crawl onListFiles root depth trail σ) ->
  type f = file /\ exists p, path f = Some p /\ p <> [].
Proof.
  intros Hf.
  destruct (crawl_accounted onListFiles root depth trail σ) as (new & _ & Hres & _).
  rewrite Hres in Hf. apply list_elem_of_In, in_flat_map in Hf as (e & _ & Hf).
  destruct e as [| p d t [lst|] |]; cbn [reported] in Hf; try done.
  apply in_map_iff in Hf as (f0 & <- & Hf0). apply filter_In in Hf0 as [_ Hfile].
  cbn [withPath type path]. split.
  - unfold isFile in Hfile. by destruct (type f0).
  - eexists. split; [reflexivity|apply filePathOf_nonempty].
Qed.

(** X8: every entry of an index is a file and carries a path, which is not
    empty. *)
Theorem index_entries_are_files (root : jsstring) (st : State) (σ : @Sys World)
    (f : FileItem) :
  indexedRef st <> root ->
  f ∈ allFiles (fst (indexAllFiles onListFiles root st σ)) ->
  type f = file /\ exists p, path f = Some p /\ p <> [].
Proof.
  intros Hnew. unfold indexAllFiles, strEq. rewrite bool_decide_eq_false_2 by done.
  pose proof (crawl_entry_file root 0 [] σ f) as H.
  destruct (crawl onListFiles root 0 [] σ) as [result σ']. exact H.
Qed.

Lemma crawlLoop_keeps_files
    (rec : jsstring -> FileItem -> @Sys World -> list FileItem * @Sys World)
    (path : jsstring) (lst collected : list FileItem) (σ : @Sys World) :
  (collected ++ filesOf path lst) `sublist_of` fst (crawlLoop rec path lst collected σ).
Proof.
  revert collected σ. induction lst as [|f rest IH]; intros collected σ.
  - cbn. by rewrite app_nil_r.
  - cbn [crawlLoop]. unfold filesOf. cbn [List.filter]. unfold isFile at 1.
    destruct (type f).
    + cbn [map]. specialize (IH (collected ++ [withPath f (filePathOf path f)]) σ).
      unfold filesOf in IH. by rewrite <- app_assoc in IH.
    + destruct (descendable f); [|apply IH].
      destruct (rec (filePathOf path f) f σ) as [sub σ1].
      etransitivity; [|apply (IH (collected ++ sub) σ1)].
      apply sublist_app; [by apply sublist_inserts_r|done].
Qed.

(** X9: the files a listed directory holds directly are in the result of
    [crawl], in the order of the listing, whatever their names and whatever
    happens in the folders beside them. *)
Theorem crawl_keeps_direct_files (path : jsstring) (depth : Z)
    (trail lst : list FileItem) (σ : @Sys World) :
  (depth <= 6)%Z ->
  fst (onListFiles path (world σ)) = Some lst ->
  filesOf path lst `sublist_of` fst (crawl onListFiles path depth trail σ).
Proof.
  intros Hd Hlst. rewrite crawl_equation_1. unfold crawl_unfold_clause_1.
  destruct (Z_gt_dec depth 6); [lia|].
  unfold listing. cbn [emit world].
  destruct (onListFiles path (world σ)) as [r w]. cbn [fst] in Hlst. subst r.
  apply (crawlLoop_keeps_files _ path lst []).
Qed.

(** X10: after [navigateTo] the query is empty and the cursor is 0, so the
    overlay displays the first 200 entries of what [loadFiles] found, index
    or not: the cached sequence, else the listing, else nothing. *)
Theorem navigateTo_displays_listing (toLowerCase : jsstring -> jsstring)
    (path : jsstring) (st : State) (σ : @Sys World) :
  let st' := fst (navigateTo onListFiles path st σ) in
  selectedIndex st' = 0%Z
  /\ currentPath st' = path
  /\ files st' = match cache st !! path with
                 | Some l => l
                 | None => default [] (fst (onListFiles path (world σ)))
                 end
  /\ filteredFiles toLowerCase (query st') (files st') (allFiles st')
     = take 200 (files st').
Proof.
  cbn zeta. unfold navigateTo, loadFiles, listing. cbn [cache].
  destruct (cache st !! path) as [l|]; [done|].
  destruct (onListFiles path (world σ)) as [[lst|] w]; done.
Qed.

(** X11: Enter on the ranked results of an index never navigates.  With the
    cursor outside the collection it calls nothing; with the cursor on an
    entry it calls [onOpenFile] with the path of that entry, which is
    present and not empty, and then [onClose]. *)
Theorem enter_on_ranked_results (toLowerCase : jsstring -> jsstring)
    (root q : jsstring) (σ : @Sys World) (sel : Z) :
  let shown := fuzzySearch toLowerCase q (fst (crawl onListFiles root 0 [] σ)) in
  ((sel < 0 \/ Z.of_nat (length shown) <= sel)%Z ->
     handleKeyEffects Enter sel shown = [])
  /\ ((0 <= sel < Z.of_nat (length shown))%Z ->
        exists f p,
          shown !! Z.to_nat sel = Some f
          /\ path f = Some p /\ p <> []
          /\ handleKeyEffects Enter sel shown
             = [CallOnOpenFile (Some p); CallOnClose]).
Proof.
  cbn zeta. unfold handleKeyEffects, entryAt. split.
  - intros [Hneg|Hbig].
    + apply Z.ltb_lt in Hneg. by rewrite Hneg.
    + destruct (sel <? 0)%Z; [done|].
      rewrite lookup_ge_None_2; [done|lia].
  - intros [Hlo Hhi].
    assert ((sel <? 0)%Z = false) as -> by (apply Z.ltb_ge; lia).
    destruct (lookup_lt_is_Some_2
                (fuzzySearch toLowerCase q (fst (crawl onListFiles root 0 [] σ)))
                (Z.to_nat sel)) as [f Hf]; [lia|].
    rewrite Hf. pose proof (list_elem_of_lookup_2 _ _ _ Hf) as Hin.
    apply fuzzySearch_elem in Hin as [Hin _].
    apply crawl_entry_file in Hin as (Ht & p & Hp & Hne).
    exists f, p. rewrite Ht, Hp. done.
Qed.

End IndexerMore.

Lemma index_entries_are_files_witness :
  indexedRef initialState <> lit "/proj"
  /\ mainGo ∈ allFiles (fst (indexAllFiles (projListing [srcDir; readmeMd]) (lit "/proj")
                               initialState (mkSys tt [])))
  /\ type mainGo = file
  /\ exists p, path mainGo = Some p /\ p <> [].
Proof.
  assert (indexedRef initialState <> lit "/proj") as Hnew by (vm_compute; discriminate).
  assert (mainGo ∈ allFiles (fst (indexAllFiles (projListing [srcDir; readmeMd])
                                    (lit "/proj") initialState (mkSys tt []))))
    as Hin by (vm_compute; repeat constructor).
  split; [exact Hnew|]. split; [exact Hin|].
  exact (index_entries_are_files (projListing [srcDir; readmeMd]) (lit "/proj")
           initialState (mkSys tt []) mainGo Hnew Hin).
Defined.

Lemma crawl_keeps_direct_files_witness :
  (0 <= 6)%Z
  /\ fst (lockedListing (lit "/proj/docs") (world (mkSys tt []))) = Some [guideMd]
  /\ filesOf (lit "/proj/docs") [guideMd]
     `sublist_of` fst (crawl lockedListing (lit "/proj/docs") 0 [] (mkSys tt [])).
Proof.
  assert (0 <= 6)%Z as Hd by lia.
  assert (fst (lockedListing (lit "/proj/docs") (world (mkSys tt []))) = Some [guideMd])
    as Hl by reflexivity.
  split; [exact Hd|]. split; [exact Hl|].
  exact (crawl_keeps_direct_files lockedListing (lit "/proj/docs") 0 [] [guideMd]
           (mkSys tt []) Hd Hl).
Defined.

(** ** Splitting and joining *)

Lemma splitOn_nonempty (sep : N) (s : jsstring) : splitOn sep s <> [].
Proof.
  induction s as [|u s IH]; [done|].
  cbn [splitOn]. destruct (u =? sep)%N; [done|]. by destruct (splitOn sep s).
Qed.

Lemma splitOn_app_sep (sep : N) (a b : jsstring) :
  splitOn sep (a ++ sep :: b) = splitOn sep a ++ splitOn sep b.
Proof.
  induction a as [|u a IH]; cbn [app splitOn].
  - by rewrite N.eqb_refl.
  - destruct (u =? sep)%N; [by rewrite IH|].
    rewrite IH. pose proof (splitOn_nonempty sep a).
    by destruct (splitOn sep a).
Qed.

Lemma splitOn_no_sep (sep : N) (s : jsstring) : sep ∉ s -> splitOn sep s = [s].
Proof.
  induction s as [|u s IH]; [done|].
  intros Hn. cbn [splitOn].
  destruct (u =? sep)%N eqn:E.
  - apply N.eqb_eq in E. subst u. exfalso. apply Hn. by left.
  - rewrite IH; [done|]. intros H. apply Hn. by right.
Qed.

Lemma splitOn_parts (sep : N) (s : jsstring) : Forall (fun part => sep ∉ part) (splitOn sep s).
Proof.
  induction s as [|u s IH]; cbn [splitOn].
  - constructor; [|constructor]. by intros H%elem_of_nil.
  - destruct (u =? sep)%N eqn:E.
    + constructor; [by intros H%elem_of_nil|done].
    + destruct (splitOn sep s) as [|h t]; [|].
      * constructor; [|constructor]. intros H%elem_of_cons.
        destruct H as [->|H%elem_of_nil]; [|done]. by rewrite N.eqb_refl in E.
      * apply Forall_cons in IH as [Hh Ht]. constructor; [|done].
        intros H%elem_of_cons. destruct H as [->|H]; [|done].
        by rewrite N.eqb_refl in E.
Qed.

(** Joining what was split gives the string back. *)
Lemma joinWith_splitOn (sep : N) (s : jsstring) : joinWith sep (splitOn sep s) = s.
Proof.
  induction s as [|u s IH]; [done|].
  cbn [splitOn]. pose proof (splitOn_nonempty sep s) as Hne.
  destruct (u =? sep)%N eqn:E.
  - apply N.eqb_eq in E. subst u.
    destruct (splitOn sep s) as [|h t]; [done|].
    cbn [joinWith app] in *. by rewrite IH.
  - destruct (splitOn sep s) as [|h t]; [done|].
    destruct t as [|h' t]; cbn [joinWith app] in *; by rewrite IH.
Qed.

Lemma joinWith_snoc (sep : N) (l : list jsstring) (x : jsstring) :
  l <> [] -> joinWith sep (l ++ [x]) = joinWith sep l ++ sep :: x.
Proof.
  induction l as [|y l IH]; [done|]. intros _.
  destruct l as [|z l]; [reflexivity|].
  change (joinWith sep ((y :: z :: l) ++ [x]))
    with (y ++ sep :: joinWith sep ((z :: l) ++ [x])).
  change (joinWith sep (y :: z :: l)) with (y ++ sep :: joinWith sep (z :: l)).
  rewrite IH by done. by rewrite <- app_assoc.
Qed.

Lemma last_splitOn_app (sep : N) (base ext : jsstring) :
  (sep ∉ ext) -> last (splitOn sep (base ++ sep :: ext)) = Some ext.
Proof.
  intros Hn. rewrite splitOn_app_sep, (splitOn_no_sep sep ext Hn). apply last_snoc.
Qed.

(** ** The editor *)

(** X12: the language of a file depends only on what follows the last dot
    of its name, and a name without a dot is read as an extension itself. *)
Theorem language_by_last_segment (toLowerCase : jsstring -> jsstring)
    (base ext : jsstring) :
  (46%N ∉ ext) ->
  Editor.getLanguageFromFileName toLowerCase (base ++ 46%N :: ext)
  = Editor.getLanguageFromFileName toLowerCase ext.
Proof.
  intros Hn. unfold Editor.getLanguageFromFileName.
  by rewrite (last_splitOn_app 46 base ext Hn), (splitOn_no_sep 46 ext Hn).
Qed.

(** A file [src.tar.go] is shown as Go, and so is a file named [go]. *)
Lemma language_by_last_segment_witness :
  (46%N ∉ lit "go")
  /\ Editor.getLanguageFromFileName asciiLower (lit "src.tar.go") = lit "go"
  /\ Editor.getLanguageFromFileName asciiLower (lit "go") = lit "go".
Proof.
  assert (46%N ∉ lit "go") as Hn.
  { intros H. apply list_elem_of_In in H. vm_compute in H.
    repeat (destruct H as [H|H]; [discriminate H|]). exact H. }
  split; [exact Hn|].
  change (lit "src.tar.go") with (lit "src.tar" ++ 46%N :: lit "go").
  rewrite (language_by_last_segment asciiLower _ _ Hn).
  split; vm_compute; reflexivity.
Defined.

(** X13: the name shown for a path ([filePath.split('/').pop() || filePath])
    is the path itself when the path holds no separator, and for a path
    [dir/n] whose last segment [n] holds none it is [n], unless [n] is
    empty (the path ends in a separator): then it is the whole path. *)
Theorem fileNameOf_cases (dir n : jsstring) :
  (47%N ∉ n) ->
  fileNameOf n = n
  /\ fileNameOf (dir ++ 47%N :: n) = (if truthy n then n else dir ++ 47%N :: n).
Proof.
  intros Hn. unfold fileNameOf. split.
  - rewrite (splitOn_no_sep 47 n Hn). cbn [last]. by destruct n.
  - by rewrite (last_splitOn_app 47 dir n Hn).
Qed.

Lemma fileNameOf_cases_witness :
  (47%N ∉ lit "main.go")
  /\ fileNameOf (lit "main.go") = lit "main.go"
  /\ fileNameOf (lit "/proj/src" ++ 47%N :: lit "main.go") = lit "main.go".
Proof.
  assert (47%N ∉ lit "main.go") as Hn
    by (apply (bool_decide_unpack _); vm_compute; exact I).
  split; [exact Hn|]. exact (fileNameOf_cases (lit "/proj/src") (lit "main.go") Hn).
Defined.

(** X14: a file the indexer names by a made-up path gets its own name
    back as the name of its tab: the name shown for [dir/name] is [name]. *)
Theorem fileNameOf_filePathOf (dir : jsstring) (f : FileItem) :
  truthyOpt (path f) = false -> name f <> [] -> (47%N ∉ name f) ->
  fileNameOf (filePathOf dir f) = name f.
Proof.
  intros Hpath Hne Hn.
  assert (exists base, filePathOf dir f = base ++ 47%N :: name f) as [base ->].
  { unfold filePathOf, pathOr.
    assert (exists base, (if endsWith dir (lit "/") then dir ++ name f
                          else dir ++ lit "/" ++ name f) = base ++ 47%N :: name f)
      as Hb.
    { destruct (endsWith dir (lit "/")) eqn:E; [|by exists dir].
      unfold endsWith in E. destruct (rev dir) as [|u r] eqn:Er; [done|].
      cbn in E. apply andb_true_iff in E as [E%N.eqb_eq _]. subst u.
      exists (rev r). rewrite <- (rev_involutive dir), Er. cbn.
      by rewrite <- app_assoc. }
    unfold truthyOpt in Hpath. destruct (path f) as [p|]; [|done].
    by rewrite Hpath. }
  unfold fileNameOf. rewrite (last_splitOn_app 47 base (name f) Hn).
  by destruct (name f).
Qed.

Lemma fileNameOf_filePathOf_witness :
  fileNameOf (filePathOf (lit "/proj/src") (mkFileItem (lit "main.go") file None None None))
  = lit "main.go".
Proof.
  apply (fileNameOf_filePathOf (lit "/proj/src")
           (mkFileItem (lit "main.go") file None None None)).
  - reflexivity.
  - discriminate.
  - intros H. apply list_elem_of_In in H. vm_compute in H.
    repeat (destruct H as [H|H]; [discriminate H|]). exact H.
Defined.

(** ** Recent files *)

Section Recent.

Context `{EqDecision A}.

Lemma filter_ne_not_in (p : A) (r : list A) :
  p ∉ List.filter (fun f => negb (bool_decide (f = p))) r.
Proof.
  intros H. apply list_elem_of_In, filter_In in H as [_ H].
  by rewrite bool_decide_eq_true_2 in H.
Qed.

Lemma filter_ne_id (p : A) (r : list A) :
  p ∉ r -> List.filter (fun f => negb (bool_decide (f = p))) r = r.
Proof.
  induction r as [|x r IH]; [done|]. intros Hn.
  cbn [List.filter]. rewrite bool_decide_eq_false_2.
  - cbn. f_equal. apply IH. intros H'. apply Hn. by right.
  - intros ->. apply Hn. by left.
Qed.

Lemma not_in_take (p : A) (n : nat) (r : list A) : p ∉ r -> p ∉ take n r.
Proof. intros Hn H'. apply Hn. eapply elem_of_prefix; [exact H'|apply prefix_take]. Qed.

Lemma updatedRecentFiles_cons (p : A) (r : list A) :
  updatedRecentFiles p r
  = p :: take 9 (List.filter (fun f => negb (bool_decide (f = p))) r).
Proof. reflexivity. Qed.

Lemma updatedRecentFiles_fresh (p : A) (r : list A) :
  p ∉ take 9 (List.filter (fun f => negb (bool_decide (f = p))) r).
Proof. apply not_in_take, filter_ne_not_in. Qed.

Lemma updatedRecentFiles_NoDup (p : A) (r : list A) :
  NoDup r -> NoDup (updatedRecentFiles p r).
Proof.
  intros Hnd. rewrite updatedRecentFiles_cons.
  apply NoDup_cons. split; [apply updatedRecentFiles_fresh|].
  eapply sublist_NoDup; [|apply sublist_take].
  apply NoDup_ListNoDup, List.NoDup_filter. by apply NoDup_ListNoDup.
Qed.

Lemma updatedRecentFiles_length (p : A) (r : list A) :
  (length (updatedRecentFiles p r) <= 10)%nat.
Proof. rewrite updatedRecentFiles_cons. cbn [length]. rewrite length_take. lia. Qed.

Lemma updatedRecentFiles_idem (p : A) (r : list A) :
  updatedRecentFiles p (updatedRecentFiles p r) = updatedRecentFiles p r.
Proof.
  rewrite (updatedRecentFiles_cons p r).
  set (rest := take 9 _).
  rewrite updatedRecentFiles_cons. cbn [List.filter].
  rewrite bool_decide_eq_true_2 by done. cbn [negb].
  rewrite (filter_ne_id p rest) by apply updatedRecentFiles_fresh.
  unfold rest. by rewrite take_take, Nat.min_id.
Qed.

(** X15: the recent files after opening [filePath] start with [filePath],
    hold it once and are at most 10; a list without repetition stays
    without; opening the same path again changes nothing. *)
Theorem updatedRecentFiles_props (filePath : A) (recentFiles : list A) :
  (exists rest, updatedRecentFiles filePath recentFiles = filePath :: rest
                /\ filePath ∉ rest)
  /\ (length (updatedRecentFiles filePath recentFiles) <= 10)%nat
  /\ (NoDup recentFiles -> NoDup (updatedRecentFiles filePath recentFiles))
  /\ updatedRecentFiles filePath (updatedRecentFiles filePath recentFiles)
     = updatedRecentFiles filePath recentFiles.
Proof.
  split_and!.
  - eexists. split; [apply updatedRecentFiles_cons|apply updatedRecentFiles_fresh].
  - apply updatedRecentFiles_length.
  - apply updatedRecentFiles_NoDup.
  - apply updatedRecentFiles_idem.
Qed.

Lemma removeFirst_filter (p : A) (r : list A) :
  NoDup r -> removeFirst p r = List.filter (fun f => negb (bool_decide (f = p))) r.
Proof.
  induction 1 as [|x r Hx Hr IH]; [done|].
  cbn [removeFirst List.filter]. case_bool_decide as E; cbn [negb].
  - subst x. by rewrite filter_ne_id.
  - by rewrite IH.
Qed.

Lemma addToRecent_take (p : A) (r : list A) :
  NoDup r ->
  addToRecent p r = take 10 (p :: List.filter (fun f => negb (bool_decide (f = p))) r).
Proof.
  intros Hnd. unfold addToRecent.
  rewrite (removeFirst_filter _ _ Hnd).
  destruct (10 <? length _)%nat eqn:E; [done|].
  apply Nat.ltb_ge in E. by rewrite take_ge.
Qed.

(** X16: on a list without repetition the backend's [addToRecent] and the
    editor's update of its own recent files compute the same list. *)
Theorem addToRecent_agrees (filePath : A) (recentFiles : list A) :
  NoDup recentFiles ->
  addToRecent filePath recentFiles = updatedRecentFiles filePath recentFiles.
Proof. apply addToRecent_take. Qed.

Lemma addToRecent_invariant (p : A) (r : list A) :
  NoDup r ->
  NoDup (addToRecent p r) /\ (length (addToRecent p r) <= 10)%nat
  /\ hd_error (addToRecent p r) = Some p.
Proof.
  intros Hnd. rewrite (addToRecent_take p r Hnd).
  change (take 10 (p :: ?l)) with (updatedRecentFiles p r).
  split_and!.
  - by apply updatedRecentFiles_NoDup.
  - apply updatedRecentFiles_length.
  - done.
Qed.

(** X17: whatever files were read since the backend started, its recent
    files hold no path twice and at most 10 paths, and the file read last
    comes first. *)
Theorem recentAfterReads_invariant (paths : list A) :
  NoDup (recentAfterReads paths)
  /\ (length (recentAfterReads paths) <= 10)%nat
  /\ hd_error (recentAfterReads paths) = last paths.
Proof.
  unfold recentAfterReads.
  induction paths as [|p paths IH] using rev_ind.
  - cbn. split_and!; [constructor|lia|done].
  - rewrite foldl_app. cbn [foldl]. destruct IH as (Hnd & _ & _).
    destruct (addToRecent_invariant p _ Hnd) as (? & ? & ?).
    rewrite last_snoc. done.
Qed.

End Recent.

Lemma addToRecent_agrees_witness :
  NoDup [lit "/a"; lit "/b"; lit "/c"]
  /\ addToRecent (lit "/b") [lit "/a"; lit "/b"; lit "/c"]
     = updatedRecentFiles (lit "/b") [lit "/a"; lit "/b"; lit "/c"].
Proof.
  assert (NoDup [lit "/a"; lit "/b"; lit "/c"]) as H
    by (apply (bool_decide_unpack _); vm_compute; exact I).
  split; [exact H|]. apply (addToRecent_agrees _ _ H).
Defined.

(** ** Tabs *)

Lemma lastId_in (l : list Editor.Tab) :
  l <> [] -> exists tab, tab ∈ l /\ Editor.id tab = Editor.lastId l.
Proof.
  intros Hl. unfold Editor.lastId. destruct (last l) as [t|] eqn:E.
  - exists t. split; [by apply last_Some_elem_of|done].
  - by apply last_None in E.
Qed.

Lemma without_keeps (x : jsstring) (t : Editor.Tab) (l : list Editor.Tab) :
  t ∈ l -> Editor.id t <> x -> t ∈ Editor.without x l.
Proof.
  intros Ht Hne. unfold Editor.without.
  apply list_elem_of_In, filter_In. split; [by apply list_elem_of_In|].
  unfold strEq. by rewrite bool_decide_eq_false_2.
Qed.

Lemma activeOk_map (g : Editor.Tab -> Editor.Tab) (st : Editor.State)
    (c : Z) (r : list jsstring) :
  (forall t, Editor.id (g t) = Editor.id t) ->
  Editor.activeOk st ->
  Editor.activeOk (Editor.mkState (map g (Editor.tabs st)) (Editor.activeTab st) c r).
Proof.
  intros Hg [H | (t & Ht & Hid)]; [by left|]. right.
  exists (g t). split; [|by rewrite Hg].
  cbn. apply list_elem_of_fmap. by exists t.
Qed.

Lemma activeOk_closeTab (tab : Editor.Tab) (st : Editor.State) :
  Editor.activeOk st -> Editor.activeOk (Editor.closeTab tab st).
Proof.
  intros Hok. unfold Editor.closeTab.
  set (newTabs := Editor.without (Editor.id tab) (Editor.tabs st)).
  destruct (strEq (Editor.id tab) (Editor.activeTab st) && (0 <? length newTabs)%nat)
    eqn:E1.
  - right. apply andb_true_iff in E1 as [_ E1]. apply Nat.ltb_lt in E1.
    apply (lastId_in newTabs). intros E. rewrite E in E1. cbn in E1. lia.
  - destruct (length newTabs =? 0)%nat eqn:E2; [by left|].
    apply Nat.eqb_neq in E2.
    destruct Hok as [H | (t & Ht & Hid)]; [by left|]. right.
    exists t. split; [|done]. apply without_keeps; [done|].
    intros E. apply andb_false_iff in E1 as [E1 | E1].
    + unfold strEq in E1. apply bool_decide_eq_false in E1. congruence.
    + apply Nat.ltb_ge in E1. lia.
Qed.

(** X18: each handler of the tabs keeps this, when it runs on the state of
    the render that created it (the [tabs] and [activeTab] it reads are the
    ones it updates): the active tab is none or the id of a tab that is
    open.  The handlers are New File, opening a path (whatever the read
    gives), Close, the close button of any tab, a click on a tab of the
    bar, an edit, what Save and Save As do to the tabs, and Close Folder. *)
Theorem handlers_keep_active_tab (numberToText : Z -> jsstring) (plusOne : Z -> Z)
    (st : Editor.State) :
  Editor.activeOk st ->
  (forall now, Editor.activeOk (Editor.createNewFile numberToText plusOne now st))
  /\ (forall read now filePath,
        Editor.activeOk (Editor.openFileFromPath read now filePath st))
  /\ Editor.activeOk (Editor.closeCurrentTab st)
  /\ (forall tab, Editor.activeOk (Editor.closeTab tab st))
  /\ (forall tab, tab ∈ Editor.tabs st -> Editor.activeOk (Editor.selectTab tab st))
  /\ (forall value, Editor.activeOk (Editor.handleContentChange value st))
  /\ Editor.activeOk (Editor.markSaved st)
  /\ (forall filePath, Editor.activeOk (Editor.markSavedAs filePath st))
  /\ Editor.activeOk (Editor.closeFolder st).
Proof.
  intros Hok. split_and!.
  - intros now. right. unfold Editor.createNewFile.
    exists (Editor.mkTab now
              (lit "Untitled-" ++ numberToText (Editor.untitledCounter st)) [] true None).
    split; [|done]. cbn. apply elem_of_app. right. by left.
  - intros read now p. unfold Editor.openFileFromPath. destruct read as [c|]; [|done].
    destruct (find _ _) as [t|] eqn:E.
    + right. exists t. split; [|done]. apply find_some in E as [E _].
      by apply list_elem_of_In.
    + right. exists (Editor.mkTab now (fileNameOf p) c false (Some p)).
      split; [|done]. cbn. apply elem_of_app. right. by left.
  - unfold Editor.closeCurrentTab. destruct (truthy _); [|done].
    destruct (Editor.without (Editor.activeTab st) (Editor.tabs st)) as [|t l] eqn:E.
    + by left.
    + right. by apply (lastId_in (t :: l)).
  - intros tab. by apply activeOk_closeTab.
  - intros tab Hin. right. by exists tab.
  - intros value. unfold Editor.handleContentChange. destruct value as [v|]; [|done].
    destruct (truthy _); [|done].
    apply activeOk_map; [|done]. intros t. by destruct (strEq _ _).
  - apply activeOk_map; [|done]. intros t. by destruct (strEq _ _).
  - intros filePath. apply activeOk_map; [|done]. intros t. by destruct (strEq _ _).
  - by left.
Qed.

(** One tab, [main.go], which is the active one. *)
Lemma handlers_keep_active_tab_witness :
  let tab := Editor.mkTab (lit "1700000000000") (lit "main.go") (lit "package main")
               false (Some (lit "/proj/src/main.go")) in
  let st := Editor.mkState [tab] (lit "1700000000000") 1 [lit "/proj/src/main.go"] in
  Editor.activeOk st
  /\ Editor.activeOk (Editor.closeTab tab st)
  /\ Editor.activeOk (Editor.createNewFile numberToString Z.succ (lit "1700000000001") st).
Proof.
  intros tab st.
  assert (Editor.activeOk st) as Hok.
  { right. exists tab. split; [apply list_elem_of_here|reflexivity]. }
  split; [exact Hok|].
  destruct (handlers_keep_active_tab numberToString Z.succ st Hok)
    as (Hnew & _ & _ & Hclose & _).
  split; [apply Hclose|apply Hnew].
Defined.

Lemma find_app {T : Type} (f : T -> bool) (l1 l2 : list T) :
  find f (l1 ++ l2) = match find f l1 with Some x => Some x | None => find f l2 end.
Proof. induction l1 as [|x l1 IH]; [done|]. cbn. by destruct (f x). Qed.

Lemma openFileFromPath_found (c now p : jsstring) (st : Editor.State) (t : Editor.Tab) :
  find (fun tab => bool_decide (Editor.filePath tab = Some p)) (Editor.tabs st) = Some t ->
  Editor.openFileFromPath (Some c) now p st
  = Editor.mkState (Editor.tabs st) (Editor.id t) (Editor.untitledCounter st)
      (updatedRecentFiles p (Editor.recentFiles st)).
Proof. intros E. unfold Editor.openFileFromPath. by rewrite E. Qed.

Lemma openFileFromPath_new (c now p : jsstring) (st : Editor.State) :
  find (fun tab => bool_decide (Editor.filePath tab = Some p)) (Editor.tabs st) = None ->
  Editor.openFileFromPath (Some c) now p st
  = Editor.mkState (Editor.tabs st ++ [Editor.mkTab now (fileNameOf p) c false (Some p)])
      now (Editor.untitledCounter st)
      (updatedRecentFiles p (Editor.recentFiles st)).
Proof. intros E. unfold Editor.openFileFromPath. by rewrite E. Qed.

(** X19: opening a path a second time only activates its tab again: no
    tab is added and the tab keeps the content of the first read, whatever
    the second read returned. *)
Theorem openFileFromPath_again (c1 c2 now1 now2 filePath : jsstring)
    (st : Editor.State) :
  let st1 := Editor.openFileFromPath (Some c1) now1 filePath st in
  Editor.openFileFromPath (Some c2) now2 filePath st1 = st1.
Proof.
  cbn zeta.
  destruct (find (fun tab => bool_decide (Editor.filePath tab = Some filePath))
              (Editor.tabs st)) as [t|] eqn:E.
  - rewrite (openFileFromPath_found c1 now1 _ _ t E).
    rewrite (openFileFromPath_found c2 now2 _ _ t) by exact E.
    cbn [Editor.tabs Editor.recentFiles Editor.untitledCounter].
    by rewrite updatedRecentFiles_idem.
  - rewrite (openFileFromPath_new c1 now1 _ _ E).
    rewrite (openFileFromPath_found c2 now2 _ _
               (Editor.mkTab now1 (fileNameOf filePath) c1 false (Some filePath))).
    + cbn [Editor.tabs Editor.recentFiles Editor.untitledCounter Editor.id].
      by rewrite updatedRecentFiles_idem.
    + cbn [Editor.tabs]. rewrite find_app, E. cbn [find Editor.filePath].
      by rewrite bool_decide_eq_true_2.
Qed.

(** X21: a tab the auto-save timer decides to save has a path and a name
    that does not start with Untitled, so the save it triggers writes to
    that path and never opens the Save dialog. *)
Theorem autoSave_never_asks (tab : Editor.Tab) :
  Editor.autoSaveDue tab = true ->
  Editor.savesThroughDialog tab = false
  /\ exists p, Editor.filePath tab = Some p /\ p <> [].
Proof.
  unfold Editor.autoSaveDue, Editor.savesThroughDialog.
  intros H. apply andb_true_iff in H as [H Hn]. apply andb_true_iff in H as [_ Hp].
  apply negb_true_iff in Hn. rewrite Hn, Hp. split; [done|].
  destruct (Editor.filePath tab) as [p|]; [|done].
  exists p. split; [done|]. by destruct p.
Qed.

Lemma autoSave_never_asks_witness :
  let tab := Editor.mkTab (lit "1700000000000") (lit "main.go") (lit "package main")
               true (Some (lit "/proj/src/main.go")) in
  Editor.autoSaveDue tab = true
  /\ Editor.savesThroughDialog tab = false
  /\ exists p, Editor.filePath tab = Some p /\ p <> [].
Proof.
  cbn zeta.
  assert (Editor.autoSaveDue
            (Editor.mkTab (lit "1700000000000") (lit "main.go") (lit "package main")
               true (Some (lit "/proj/src/main.go"))) = true) as H
    by reflexivity.
  split; [exact H|]. apply (autoSave_never_asks _ H).
Defined.

(** ** The launcher *)

(** X22: Up leads from [dir/n] to [dir], and to [/] when [dir] is empty;
    from a path without any [/] it leads to [/].  It never navigates to the
    empty path. *)
Theorem goUp_parent (dir n : jsstring) :
  (47%N ∉ n) ->
  goUp (dir ++ lit "/" ++ n) = (if truthy dir then dir else lit "/")
  /\ goUp n = lit "/"
  /\ forall browserPath, goUp browserPath <> [].
Proof.
  intros Hn. unfold goUp. split_and!.
  - change (dir ++ lit "/" ++ n) with (dir ++ 47%N :: n).
    rewrite splitOn_app_sep, (splitOn_no_sep 47 n Hn).
    rewrite length_app. cbn [length].
    replace (length (splitOn 47 dir) + 1 - 1)%nat with (length (splitOn 47 dir)) by lia.
    rewrite take_app_length. by rewrite joinWith_splitOn.
  - by rewrite (splitOn_no_sep 47 n Hn).
  - intros browserPath.
    destruct (joinWith 47 (take (length (splitOn 47 browserPath) - 1)
                             (splitOn 47 browserPath))) as [|u parentPath]; done.
Qed.

Lemma goUp_parent_witness :
  (47%N ∉ lit "notes")
  /\ goUp (lit "/home/ann" ++ lit "/" ++ lit "notes") = lit "/home/ann"
  /\ goUp (lit "notes") = lit "/".
Proof.
  assert (47%N ∉ lit "notes") as Hn
    by (apply (bool_decide_unpack _); vm_compute; exact I).
  split; [exact Hn|].
  destruct (goUp_parent (lit "/home/ann") (lit "notes") Hn) as (Hdir & Hroot & _).
  split; [exact Hdir|exact Hroot].
Defined.

Section LauncherFacts.

Variable toLowerCase : jsstring -> jsstring.

(** X23: the launcher's browser shows at most 50 entries, all of them
    among the first 100 of the listing and in its order, and each with a
    name that contains the query; a listing that failed shows nothing. *)
Theorem launcher_shows_first_hundred (fileList : list FileItem) (query : jsstring) :
  let shown := filteredBrowserFiles toLowerCase (loadBrowserFiles (Some fileList)) query in
  shown `sublist_of` take 100 fileList
  /\ (length shown <= 50)%nat
  /\ Forall (fun f => includes (toLowerCase (name f)) (toLowerCase query) = true) shown
  /\ filteredBrowserFiles toLowerCase (loadBrowserFiles None) query = [].
Proof.
  cbn zeta. unfold filteredBrowserFiles, loadBrowserFiles. split_and!.
  - etransitivity; [apply sublist_take|apply filter_sublist].
  - rewrite length_take. lia.
  - apply Forall_forall. intros f Hf.
    assert (f ∈ List.filter
              (fun file => includes (toLowerCase (name file)) (toLowerCase query))
              (take 100 fileList)) as Hf'.
    { eapply elem_of_prefix; [exact Hf|apply prefix_take]. }
    apply list_elem_of_In, filter_In in Hf'. tauto.
  - done.
Qed.

End LauncherFacts.

(** ** The backend *)

Section BackendFacts.

Context {Time : Type}.
Variable ReadDir : list N -> option (list (Backend.DirEntry Time)).
Variable Join : list N -> list N -> list N.
Variable FormatRFC3339 : Time -> list N.

Lemma listLoop_names (dirPath : list N) (files : list (Backend.DirEntry Time))
    (fileInfos : list Backend.FileInfo) :
  map Backend.infoName (Backend.listLoop Join FormatRFC3339 dirPath files fileInfos)
  = map Backend.infoName fileInfos
    ++ List.filter (fun n => negb (Backend.HasPrefix n (lit ".")))
         (map Backend.Name files).
Proof.
  revert fileInfos. induction files as [|entry rest IH]; intros fileInfos.
  - cbn. by rewrite app_nil_r.
  - cbn [Backend.listLoop map List.filter].
    destruct (Backend.HasPrefix (Backend.Name entry) (lit ".")); cbn [negb].
    + apply IH.
    + rewrite IH, map_app. cbn [map Backend.infoName]. by rewrite <- app_assoc.
Qed.

Lemma listLoop_paths (dirPath : list N) (files : list (Backend.DirEntry Time))
    (fileInfos : list Backend.FileInfo) :
  Forall (fun i => Backend.infoPath i = Join dirPath (Backend.infoName i)) fileInfos ->
  Forall (fun i => Backend.infoPath i = Join dirPath (Backend.infoName i))
    (Backend.listLoop Join FormatRFC3339 dirPath files fileInfos).
Proof.
  revert fileInfos. induction files as [|entry rest IH]; intros fileInfos Hacc; [done|].
  cbn [Backend.listLoop].
  destruct (Backend.HasPrefix (Backend.Name entry) (lit ".")); [by apply IH|].
  apply IH. apply Forall_app. split; [done|]. by constructor.
Qed.

(** X24: what [ListFiles] returns for a directory that can be read: the
    names that do not start with a dot, in the order of the directory, each
    with the path joined from the directory and the name; the empty
    directory path stands for the current directory. *)
Theorem ListFiles_visible (dirPath : list N) (fileInfos : list Backend.FileInfo) :
  Backend.ListFiles ReadDir Join FormatRFC3339 dirPath = Some fileInfos ->
  let dir := if bool_decide (dirPath = []) then lit "." else dirPath in
  exists files,
    ReadDir dir = Some files
    /\ map Backend.infoName fileInfos
       = List.filter (fun n => negb (Backend.HasPrefix n (lit ".")))
           (map Backend.Name files)
    /\ Forall (fun i => Backend.HasPrefix (Backend.infoName i) (lit ".") = false
                        /\ Backend.infoPath i = Join dir (Backend.infoName i))
         fileInfos.
Proof.
  unfold Backend.ListFiles. cbn zeta.
  set (dir := if bool_decide (dirPath = []) then lit "." else dirPath).
  destruct (ReadDir dir) as [files|]; [|done].
  intros [= <-]. exists files. split; [done|].
  pose proof (listLoop_names dir files []) as Hn. cbn [map app] in Hn.
  split; [exact Hn|].
  apply Forall_forall. intros i Hi. split.
  - assert (Backend.infoName i ∈ map Backend.infoName
              (Backend.listLoop Join FormatRFC3339 dir files [])) as Hin.
    { apply list_elem_of_fmap. by exists i. }
    rewrite Hn in Hin. apply list_elem_of_In, filter_In in Hin as [_ Hin].
    by apply negb_true_iff in Hin.
  - pose proof (listLoop_paths dir files [] (Forall_nil_2 _)) as Hp.
    rewrite Forall_forall in Hp. by apply Hp.
Qed.

End BackendFacts.

Lemma ListFiles_visible_witness :
  let ReadDir := fun _ : list N =>
    Some [Backend.mkDirEntry Z (lit ".git") true 4096%Z 0%Z;
          Backend.mkDirEntry Z (lit "main.go") false 2048%Z 0%Z] in
  let Join := fun d n : list N => d ++ lit "/" ++ n in
  let Format := fun _ : Z => lit "2024-01-01T00:00:00Z" in
  let fileInfos :=
    [Backend.mkFileInfo (lit "main.go") (lit "./main.go") false 2048%Z
       (lit "2024-01-01T00:00:00Z")] in
  Backend.ListFiles ReadDir Join Format [] = Some fileInfos
  /\ exists files,
       ReadDir (lit ".") = Some files
       /\ map Backend.infoName fileInfos
          = List.filter (fun n => negb (Backend.HasPrefix n (lit ".")))
              (map Backend.Name files)
       /\ Forall (fun i => Backend.HasPrefix (Backend.infoName i) (lit ".") = false
                           /\ Backend.infoPath i = Join (lit ".") (Backend.infoName i))
            fileInfos.
Proof.
  intros ReadDir Join Format fileInfos.
  assert (Backend.ListFiles ReadDir Join Format [] = Some fileInfos) as H
    by reflexivity.
  split; [exact H|]. exact (ListFiles_visible ReadDir Join Format [] fileInfos H).
Defined.

(** X25: when the directory of the file exists or can be created, every
    error of [CheckFilePermissions] (the file is read-only, the directory
    cannot be written) is shown by the save handlers as the permission
    alert, whatever the path and the text of the system error are. *)
Theorem permission_errors_alert (filePath dir : jsstring) (statMode : option Z)
    (writeErr : option jsstring) (errorMsg : jsstring) :
  Backend.CheckFilePermissions filePath dir None statMode writeErr = Some errorMsg ->
  saveAlert errorMsg = PermissionDenied.
Proof.
  unfold Backend.CheckFilePermissions.
  destruct (match statMode with Some perm => (Z.land perm 128 =? 0)%Z | None => false end).
  - intros H.
    assert (errorMsg = (lit "file " ++ filePath ++ lit " is ") ++ lit "read-only" ++ [])
      as -> by (injection H as H; subst errorMsg;
                rewrite app_nil_r, <- !app_assoc; reflexivity).
    unfold saveAlert.
    rewrite (proj2 (includes_infix _ (lit "read-only"))) by eauto.
    by rewrite orb_true_r.
  - destruct writeErr as [err|]; [|done]. intros H.
    assert (errorMsg = lit "no write " ++ lit "permission"
                       ++ (lit " in directory " ++ dir ++ lit ": " ++ err))
      as -> by (injection H as H; subst errorMsg; reflexivity).
    unfold saveAlert.
    by rewrite (proj2 (includes_infix _ (lit "permission"))) by eauto.
Qed.

Lemma permission_errors_alert_witness :
  Backend.CheckFilePermissions (lit "/tmp/sonet_test/readonly_file.txt")
    (lit "/tmp/sonet_test") None (Some 292%Z) None
  = Some (lit "file /tmp/sonet_test/readonly_file.txt is read-only")
  /\ saveAlert (lit "file /tmp/sonet_test/readonly_file.txt is read-only")
     = PermissionDenied.
Proof.
  assert (Backend.CheckFilePermissions (lit "/tmp/sonet_test/readonly_file.txt")
            (lit "/tmp/sonet_test") None (Some 292%Z) None
          = Some (lit "file /tmp/sonet_test/readonly_file.txt is read-only")) as H
    by reflexivity.
  split; [exact H|]. exact (permission_errors_alert _ _ _ _ _ H).
Defined.

(** ** The file tree *)

Lemma TreeItem_nested_ind (P : Explorer.TreeItem -> Prop) :
  (forall f o, P (Explorer.mkTreeItem f o None)) ->
  (forall f o ch, Forall P ch -> P (Explorer.mkTreeItem f o (Some ch))) ->
  forall it, P it.
Proof.
  intros Hleaf Hnode. fix IH 1. intros [f o [ch|]]; [|apply Hleaf].
  apply Hnode. induction ch as [|x r IHr]; constructor; [apply IH|apply IHr].
Qed.

Lemma updateTreeItem_eq (p : jsstring) (f : FileItem) (o : option bool)
    (c : option (list Explorer.TreeItem)) :
  Explorer.updateTreeItem p (Explorer.mkTreeItem f o c)
  = if pathIs f p && negb (isFile f)
    then Explorer.mkTreeItem f (Some (negb (Explorer.truthyOpen o))) c
    else match c with
         | Some ch =>
             Explorer.mkTreeItem f o (Some (map (Explorer.updateTreeItem p) ch))
         | None => Explorer.mkTreeItem f o None
         end.
Proof. by destruct c. Qed.

Lemma opennessKnown_eq (f : FileItem) (o : option bool)
    (c : option (list Explorer.TreeItem)) :
  Explorer.opennessKnown (Explorer.mkTreeItem f o c)
  = match o with Some _ => true | None => false end
    && match c with
       | Some ch => forallb Explorer.opennessKnown ch
       | None => true
       end.
Proof. by destruct c. Qed.

Lemma updateTreeItem_twice (p : jsstring) (it : Explorer.TreeItem) :
  Explorer.opennessKnown it = true ->
  Explorer.updateTreeItem p (Explorer.updateTreeItem p it) = it.
Proof.
  induction it as [f o|f o ch IH] using TreeItem_nested_ind;
    rewrite opennessKnown_eq; intros [Ho Hc]%andb_true_iff;
    destruct o as [b|]; try done;
    rewrite updateTreeItem_eq;
    destruct (pathIs f p && negb (isFile f)) eqn:E;
    rewrite updateTreeItem_eq, E; cbn [Explorer.truthyOpen];
    rewrite ?negb_involutive; try done.
  do 2 f_equal. rewrite map_map.
  rewrite <- (map_id ch) at 2. apply map_ext_in. intros x Hx.
  rewrite Forall_forall in IH. apply IH; [by apply list_elem_of_In|].
  rewrite forallb_forall in Hc. by apply Hc.
Qed.

(** X26: in the drawer, toggling the same path twice gives back the tree,
    when every item of the tree carries [isOpen]. *)
Theorem drawerToggleFolder_twice (path : jsstring) (fileTree : list Explorer.TreeItem) :
  forallb Explorer.opennessKnown fileTree = true ->
  Explorer.drawerToggleFolder path (Explorer.drawerToggleFolder path fileTree)
  = fileTree.
Proof.
  intros H. unfold Explorer.drawerToggleFolder, Explorer.updateTree.
  rewrite map_map. rewrite <- (map_id fileTree) at 2.
  apply map_ext_in. intros x Hx. apply updateTreeItem_twice.
  rewrite forallb_forall in H. by apply H.
Qed.

Section TreeFacts.

Context {World : Type}.
Variable ListFiles : jsstring -> World -> option (list Backend.FileInfo) * World.

Lemma updateItem_eq (n p : jsstring) (f : FileItem) (o : option bool)
    (c : option (list Explorer.TreeItem)) (w : World) :
  Explorer.updateItem ListFiles n p (Explorer.mkTreeItem f o c) w
  = if Explorer.isClicked n p (Explorer.mkTreeItem f o c) then
      if negb (Explorer.truthyOpen o)
         && match c with
            | Some ch => (length ch =? 0)%nat
            | None => true
            end
      then
        let '(ch, w') := Explorer.loadFolderChildren ListFiles (pathOr f []) w in
        (Explorer.mkTreeItem f (Some true) (Some ch), w')
      else (Explorer.mkTreeItem f (Some (negb (Explorer.truthyOpen o))) c, w)
    else
      match c with
      | Some ch =>
          let '(updatedChildren, w') :=
            Explorer.updateLoop (Explorer.updateItem ListFiles n p) ch w in
          (Explorer.mkTreeItem f o (Some updatedChildren), w')
      | None => (Explorer.mkTreeItem f o None, w)
      end.
Proof. by destruct c. Qed.

Lemma expanded_eq (n p : jsstring) (f : FileItem) (o : option bool)
    (c : option (list Explorer.TreeItem)) :
  Explorer.expanded n p (Explorer.mkTreeItem f o c)
  = if Explorer.isClicked n p (Explorer.mkTreeItem f o c) then
      match o, c with
      | Some _, Some (_ :: _) => true
      | _, _ => false
      end
    else
      match c with
      | Some ch => forallb (Explorer.expanded n p) ch
      | None => true
      end.
Proof. by destruct c. Qed.

Lemma isClicked_item (n p : jsstring) (f : FileItem) (o o' : option bool)
    (c c' : option (list Explorer.TreeItem)) :
  Explorer.isClicked n p (Explorer.mkTreeItem f o c)
  = Explorer.isClicked n p (Explorer.mkTreeItem f o' c').
Proof. reflexivity. Qed.

Lemma updateLoop_flips (n p : jsstring) (l : list Explorer.TreeItem) :
  Forall (Explorer.flips ListFiles n p) l ->
  exists l', (forall w, Explorer.updateLoop (Explorer.updateItem ListFiles n p) l w = (l', w))
             /\ (forall w, Explorer.updateLoop (Explorer.updateItem ListFiles n p) l' w = (l, w)).
Proof.
  induction 1 as [|x l (x' & Hx & Hx') _ (l' & Hl & Hl')].
  - by exists [].
  - exists (x' :: l'). split; intros w; cbn [Explorer.updateLoop].
    + by rewrite Hx, Hl.
    + by rewrite Hx', Hl'.
Qed.

Lemma updateItem_flips (n p : jsstring) (it : Explorer.TreeItem) :
  Explorer.expanded n p it = true -> Explorer.flips ListFiles n p it.
Proof.
  induction it as [f o|f o ch IH] using TreeItem_nested_ind;
    rewrite expanded_eq; intros Hexp.
  - destruct (Explorer.isClicked n p (Explorer.mkTreeItem f o None)) eqn:E.
    + by destruct o.
    + exists (Explorer.mkTreeItem f o None). split; intros w; by rewrite updateItem_eq, E.
  - destruct (Explorer.isClicked n p (Explorer.mkTreeItem f o (Some ch))) eqn:E.
    + destruct o as [b|]; [|done]. destruct ch as [|c cs]; [done|].
      exists (Explorer.mkTreeItem f (Some (negb b)) (Some (c :: cs))).
      split; intros w; rewrite updateItem_eq.
      * rewrite E. cbn [length Nat.eqb]. by rewrite andb_false_r.
      * rewrite <- (isClicked_item n p f (Some b) _ (Some (c :: cs))), E.
        cbn [length Nat.eqb Explorer.truthyOpen].
        by rewrite andb_false_r, negb_involutive.
    + destruct (updateLoop_flips n p ch) as (ch' & Hch & Hch').
      { rewrite Forall_forall in IH. apply Forall_forall. intros x Hx.
        apply IH; [done|]. rewrite forallb_forall in Hexp.
        by apply Hexp, list_elem_of_In. }
      exists (Explorer.mkTreeItem f o (Some ch')).
      split; intros w; rewrite updateItem_eq.
      * by rewrite E, Hch.
      * rewrite <- (isClicked_item n p f o _ (Some ch)), E. by rewrite Hch'.
Qed.

(** X27: when the clicked folder carries [isOpen] and has its children
    loaded, wherever the loop of [toggleFolder] meets it, a click collapses
    or expands it without touching the world (no listing call), and a
    second click gives back the tree. *)
Theorem toggleFolder_twice (folderName folderPath : jsstring)
    (items : list Explorer.TreeItem) (w : World) :
  forallb (Explorer.expanded folderName folderPath) items = true ->
  let r := Explorer.toggleFolder ListFiles folderName folderPath items w in
  snd r = w
  /\ Explorer.toggleFolder ListFiles folderName folderPath (fst r) w = (items, w).
Proof.
  intros H. cbn zeta. unfold Explorer.toggleFolder.
  destruct (updateLoop_flips folderName folderPath items) as (l' & Hl & Hl').
  - apply Forall_forall. intros x Hx. apply updateItem_flips.
    rewrite forallb_forall in H. by apply H, list_elem_of_In.
  - rewrite Hl. cbn [fst snd]. by rewrite Hl'.
Qed.

Lemma updateItem_item (n p : jsstring) (it : Explorer.TreeItem) (w : World) :
  Explorer.item (fst (Explorer.updateItem ListFiles n p it w)) = Explorer.item it.
Proof.
  destruct it as [f o c]. rewrite updateItem_eq.
  destruct (Explorer.isClicked _ _ _).
  - destruct (_ && _); [|done].
    by destruct (Explorer.loadFolderChildren _ _ _).
  - destruct c as [ch|]; [|done].
    by destruct (Explorer.updateLoop _ _ _).
Qed.

(** X28: neither [toggleFolder] adds, removes, reorders or changes the
    entries of the level it is given; only [isOpen] and what is below
    them changes. *)
Theorem toggleFolder_keeps_entries (folderName folderPath : jsstring)
    (items : list Explorer.TreeItem) (w : World) :
  map Explorer.item (fst (Explorer.toggleFolder ListFiles folderName folderPath items w))
  = map Explorer.item items
  /\ map Explorer.item (Explorer.drawerToggleFolder folderPath items)
     = map Explorer.item items.
Proof.
  split.
  - unfold Explorer.toggleFolder. revert w.
    induction items as [|x l IH]; intros w; [done|].
    cbn [Explorer.updateLoop].
    pose proof (updateItem_item folderName folderPath x w) as Hx.
    destruct (Explorer.updateItem ListFiles folderName folderPath x w) as [x' w1].
    specialize (IH w1).
    destruct (Explorer.updateLoop _ l w1) as [l' w2].
    cbn [fst map] in *. by rewrite Hx, IH.
  - unfold Explorer.drawerToggleFolder, Explorer.updateTree.
    rewrite map_map. apply map_ext. intros [f o c].
    rewrite updateTreeItem_eq. destruct (_ && _); [done|]. by destruct c.
Qed.

End TreeFacts.

Lemma drawerToggleFolder_twice_witness :
  forallb Explorer.opennessKnown projTree = true
  /\ Explorer.drawerToggleFolder (lit "/proj/src")
       (Explorer.drawerToggleFolder (lit "/proj/src") projTree) = projTree.
Proof.
  assert (forallb Explorer.opennessKnown projTree = true) as H by reflexivity.
  split; [exact H|]. exact (drawerToggleFolder_twice (lit "/proj/src") projTree H).
Defined.

Lemma toggleFolder_twice_witness :
  let r := Explorer.toggleFolder countingListFiles (lit "src") (lit "/proj/src")
             projTree 0%nat in
  forallb (Explorer.expanded (lit "src") (lit "/proj/src")) projTree = true
  /\ snd r = 0%nat
  /\ Explorer.toggleFolder countingListFiles (lit "src") (lit "/proj/src") (fst r) 0%nat
     = (projTree, 0%nat).
Proof.
  intros r.
  assert (forallb (Explorer.expanded (lit "src") (lit "/proj/src")) projTree = true)
    as H by reflexivity.
  split; [exact H|].
  exact (toggleFolder_twice countingListFiles (lit "src") (lit "/proj/src")
           projTree 0%nat H).
Defined.

(** ** Renaming *)

Lemma lastIndexOf_none (s : jsstring) (c : N) : (c ∉ s) -> lastIndexOf s c = (-1)%Z.
Proof.
  induction s as [|u s IH]; [done|]. intros Hn. cbn [lastIndexOf].
  rewrite IH by (intros H; apply Hn; by right). cbn.
  destruct (u =? c)%N eqn:E; [|done].
  apply N.eqb_eq in E. subst u. exfalso. apply Hn. by left.
Qed.

Lemma lastIndexOf_app (d n : jsstring) (c : N) :
  (c ∉ n) -> lastIndexOf (d ++ c :: n) c = Z.of_nat (length d).
Proof.
  intros Hn. induction d as [|u d IH]; cbn [app lastIndexOf length].
  - rewrite (lastIndexOf_none n c Hn). cbn. by rewrite N.eqb_refl.
  - rewrite IH. destruct (0 <=? Z.of_nat (length d))%Z eqn:E; [lia|].
    apply Z.leb_gt in E. lia.
Qed.

(** X29: a rename with a name that is not blank targets the new name,
    trimmed, in the directory of the old path; for an old path without any
    [/] the target lies in the root directory. *)
Theorem handleRename_same_directory (renamingItem : option jsstring)
    (newName dir n : jsstring) :
  (47%N ∉ n) ->
  truthyOpt renamingItem = true ->
  truthy (trim newName) = true ->
  handleRenameTarget renamingItem newName (dir ++ lit "/" ++ n)
  = Some (dir ++ lit "/" ++ trim newName)
  /\ handleRenameTarget renamingItem newName n = Some (lit "/" ++ trim newName).
Proof.
  intros Hn Hr Ht. unfold handleRenameTarget. rewrite Hr, Ht. cbn [negb orb]. split.
  - change (dir ++ lit "/" ++ n) with (dir ++ 47%N :: n).
    rewrite (lastIndexOf_app dir n 47 Hn). unfold substringTo.
    rewrite Z.max_r by lia. rewrite Nat2Z.id, take_app_length. done.
  - rewrite (lastIndexOf_none n 47 Hn). done.
Qed.

Lemma handleRename_same_directory_witness :
  (47%N ∉ lit "old.md")
  /\ truthyOpt (Some (lit "/proj/old.md")) = true
  /\ truthy (trim (lit " new.md ")) = true
  /\ handleRenameTarget (Some (lit "/proj/old.md")) (lit " new.md ")
       (lit "/proj" ++ lit "/" ++ lit "old.md")
     = Some (lit "/proj" ++ lit "/" ++ trim (lit " new.md "))
  /\ handleRenameTarget (Some (lit "/proj/old.md")) (lit " new.md ") (lit "old.md")
     = Some (lit "/" ++ trim (lit " new.md ")).
Proof.
  assert (47%N ∉ lit "old.md") as Hn
    by (apply (bool_decide_unpack _); vm_compute; exact I).
  assert (truthyOpt (Some (lit "/proj/old.md")) = true) as Hr by reflexivity.
  assert (truthy (trim (lit " new.md ")) = true) as Ht by reflexivity.
  split; [exact Hn|]. split; [exact Hr|]. split; [exact Ht|].
  exact (handleRename_same_directory (Some (lit "/proj/old.md")) (lit " new.md ")
           (lit "/proj") (lit "old.md") Hn Hr Ht).
Defined.
